(** * Model Arena: fan-out of story generations, SSE progress stream, LLM judge

    A shallow embedding of the Model Arena of the SDK explorer:
    - [src/agent/model-arena/types.ts]   (providers, [ModelResult], Zod schemas),
    - [src/agent/model-arena/lib.ts]     ([MODELS], [getModel], [generateStory]),
    - [src/agent/model-arena/prompts.ts] (story and judge prompts),
    - [src/api/model-arena/route.ts]     (the [/stream] SSE handler),
    - [src/agent/model-arena/agent.ts]   (the non-streaming agent handler).

    Hosted models ([generateText], [generateObject]), the wall clock and the
    session id are the environment: they are Section variables, so every
    theorem holds for every behaviour of the providers and of the judge.
    The event loop is a labelled transition system whose labels say which
    pending promise settles next, so every theorem holds for every arrival
    order, and for runs in which some call never settles.
    [stream.writeSSE] appends to the stream and does not throw: the client
    stays connected. *)

From Stdlib Require Import ZArith Floats.PrimFloat.
From Stdlib Require Floats.SpecFloat Floats.FloatOps.
From stdpp Require Import base option strings list pretty.

Set Warnings "-register-all,-inexact-float".

Local Open Scope string_scope.
Local Open Scope Z_scope.
Local Open Scope list_scope.

(** ** JavaScript values *)

(** A JavaScript number is an IEEE 754 binary64 value: a finite one, an
    infinity or [NaN].  An integer of the program is the number nearest to
    it, which is the integer itself below [2^53]. *)
Definition number_of_Z (n : Z) : float :=
  FloatOps.SF2Prim (SpecFloat.binary_normalize FloatOps.prec FloatOps.emax n 0 false).

(** A JSON value as JavaScript holds it: what [JSON.parse] returns, what
    [JSON.stringify] is given, and what a model's structured output is when
    a schema looks at it.  [JSON.parse] has read every numeral as the nearest
    binary64 number, and as an infinity when it is too large for one.  An
    object lists its members in the order written. *)
Inductive json : Type :=
| JNull
| JBool (b : bool)
| JNum (x : float)
| JStr (s : string)
| JArr (items : list json)
| JObj (fields : list (string * json)).

(** [o[k]] on the members of an object; [None] is [undefined].  A key
    written more than once has the value written last, in an object literal
    and in the text [JSON.parse] reads alike. *)
Fixpoint get (k : string) (fields : list (string * json)) : option json :=
  match fields with
  | [] => None
  | (k', v) :: rest =>
      match get k rest with
      | Some later => Some later
      | None => if decide (k' = k) then Some v else None
      end
  end.

(** [{...o, k: v}]: an own key keeps the position it first has and takes
    the new value, which replaces every value written for it; a new key
    goes last. *)
Fixpoint spread_set (k : string) (v : json) (fields : list (string * json))
  : list (string * json) :=
  match fields with
  | [] => [(k, v)]
  | (k', v') :: rest =>
      if decide (k' = k) then (k, v) :: filter (fun member => member.1 <> k) rest
      else (k', v') :: spread_set k v rest
  end.

(** Property access through a value that may not be an object. *)
Definition prop (k : string) (j : json) : option json :=
  match j with
  | JObj fields => get k fields
  | _ => None
  end.

(** What a [throw] carries: an [Error] with its message, or anything else.
    The handlers only ask [error instanceof Error ? error.message : ...]. *)
Inductive thrown : Type :=
| ErrorObj (message : string)
| NonError.

(** A settled promise. *)
Inductive settled (A : Type) : Type :=
| Fulfilled (a : A)
| Rejected (e : thrown).
Arguments Fulfilled {A} a.
Arguments Rejected {A} e.

Definition fulfilled_value {A} (r : settled A) : option A :=
  match r with
  | Fulfilled a => Some a
  | Rejected _ => None
  end.

Definition is_rejected {A} (r : settled A) : bool :=
  match r with
  | Fulfilled _ => false
  | Rejected _ => true
  end.

(** ** types.ts *)

Inductive Tone : Type := whimsical | sci_fi | suspenseful | comedic.

Definition tone_name (t : Tone) : string :=
  match t with
  | whimsical => "whimsical"
  | sci_fi => "sci-fi"
  | suspenseful => "suspenseful"
  | comedic => "comedic"
  end.

(** [type Provider = (typeof PROVIDERS)[number]]: the two string literals. *)
Inductive Provider : Type := openai | anthropic.

#[export] Instance Provider_eq_dec : EqDecision Provider.
Proof. solve_decision. Defined.

Definition provider_name (p : Provider) : string :=
  match p with
  | openai => "openai"
  | anthropic => "anthropic"
  end.

Definition PROVIDERS : list Provider := [openai; anthropic].

Definition PROVIDER_DISPLAY_NAMES (p : Provider) : string :=
  match p with
  | openai => "OpenAI"
  | anthropic => "Anthropic"
  end.

Record ModelResult : Type := {
  provider : Provider;
  model : string;
  story : string;
  generationMs : Z;
  tokens : Z;
}.

(** What [z.number()] gives: a number that is neither [NaN] nor an
    infinity. *)
Record finite : Type := Finite {
  value :> float;
  value_finite : is_finite value = true;
}.

(** The part of Zod the schemas use.  A schema is its [parse]: [None] is a
    [ZodError].  [z.object] reads the keys it declares and ignores the
    others; a missing key reads [undefined], which no schema here accepts. *)
Module z.
Definition schema (A : Type) : Type := json -> option A.

Definition string : schema String.string :=
  fun j => match j with JStr s => Some s | _ => None end.

Definition number : schema finite :=
  fun j =>
    match j with
    | JNum x =>
        match decide (is_finite x = true) with
        | left isFinite => Some (Finite x isFinite)
        | right _ => None
        end
    | _ => None
    end.

Definition boolean : schema bool :=
  fun j => match j with JBool b => Some b | _ => None end.

Definition enum (options : list Provider) : schema Provider :=
  fun j =>
    match j with
    | JStr s => List.find (fun p => bool_decide (provider_name p = s)) options
    | _ => None
    end.

Definition array {A} (item : schema A) : schema (list A) :=
  fun j => match j with JArr items => mapM item items | _ => None end.

Definition field {A} (k : String.string) (s : schema A) : schema A :=
  fun j => match j with JObj fields => get k fields ≫= s | _ => None end.
End z.

Record ProviderScore : Type := {
  score_provider : Provider;
  score : finite;
  score_reason : string;
}.

Record ProviderBinary : Type := {
  binary_provider : Provider;
  passed : bool;
  binary_reason : string;
}.

Record Scores : Type := {
  creativity : list ProviderScore;
  engagement : list ProviderScore;
}.

Record Checks : Type := {
  toneMatch : list ProviderBinary;
  wordCount : list ProviderBinary;
}.

Record Judgment : Type := {
  winner : Provider;
  reasoning : string;
  scores : Scores;
  checks : Checks;
}.

Definition ProviderScoreSchema : z.schema ProviderScore :=
  fun j =>
    p ← z.field "provider" (z.enum PROVIDERS) j;
    s ← z.field "score" z.number j;
    r ← z.field "reason" z.string j;
    Some {| score_provider := p; score := s; score_reason := r |}.

Definition ProviderBinarySchema : z.schema ProviderBinary :=
  fun j =>
    p ← z.field "provider" (z.enum PROVIDERS) j;
    b ← z.field "passed" z.boolean j;
    r ← z.field "reason" z.string j;
    Some {| binary_provider := p; passed := b; binary_reason := r |}.

Definition ScoresSchema : z.schema Scores :=
  fun j =>
    c ← z.field "creativity" (z.array ProviderScoreSchema) j;
    e ← z.field "engagement" (z.array ProviderScoreSchema) j;
    Some {| creativity := c; engagement := e |}.

Definition ChecksSchema : z.schema Checks :=
  fun j =>
    t ← z.field "toneMatch" (z.array ProviderBinarySchema) j;
    w ← z.field "wordCount" (z.array ProviderBinarySchema) j;
    Some {| toneMatch := t; wordCount := w |}.

Definition JudgmentSchema : z.schema Judgment :=
  fun j =>
    w ← z.field "winner" (z.enum PROVIDERS) j;
    r ← z.field "reasoning" z.string j;
    s ← z.field "scores" ScoresSchema j;
    c ← z.field "checks" ChecksSchema j;
    Some {| winner := w; reasoning := r; scores := s; checks := c |}.

(** The parsed judgment as the object [JSON.stringify] sees. *)
Definition score_fields (s : ProviderScore) : json :=
  JObj [("provider", JStr (provider_name (score_provider s)));
        ("score", JNum (score s));
        ("reason", JStr (score_reason s))].

Definition binary_fields (b : ProviderBinary) : json :=
  JObj [("provider", JStr (provider_name (binary_provider b)));
        ("passed", JBool (passed b));
        ("reason", JStr (binary_reason b))].

Definition judgment_fields (jd : Judgment) : list (string * json) :=
  [("winner", JStr (provider_name (winner jd)));
   ("reasoning", JStr (reasoning jd));
   ("scores", JObj [("creativity", JArr (score_fields <$> creativity (scores jd)));
                    ("engagement", JArr (score_fields <$> engagement (scores jd)))]);
   ("checks", JObj [("toneMatch", JArr (binary_fields <$> toneMatch (checks jd)));
                    ("wordCount", JArr (binary_fields <$> wordCount (checks jd)))])].

(** ** prompts.ts *)

Definition WORD_LIMIT : Z := 200.

Definition nl : string := String (Ascii.ascii_of_nat 10) EmptyString.
Definition dq : string := String (Ascii.ascii_of_nat 34) EmptyString.

Definition TONE_DESCRIPTIONS (t : Tone) : string :=
  match t with
  | whimsical =>
      "whimsical and playful, with a sense of wonder, lightness, and perhaps some magical or fantastical elements"
  | sci_fi =>
      "science fiction or futuristic, with technology, space, speculative science, or dystopian/utopian themes"
  | suspenseful =>
      "suspenseful and tense, building dread or anticipation, with thriller-like pacing"
  | comedic =>
      "comedic and funny, with humor, absurdity, or witty elements that aim to make the reader laugh"
  end.

Definition getStorySystemPrompt (tone : Tone) : string :=
  "You are a creative storyteller. Write a short story (maximum "
    +:+ pretty WORD_LIMIT +:+ " words) based on the user's prompt." +:+ nl
    +:+ nl
    +:+ "Style: " +:+ TONE_DESCRIPTIONS tone +:+ nl
    +:+ nl
    +:+ "Requirements:" +:+ nl
    +:+ "- Stay under " +:+ pretty WORD_LIMIT +:+ " words" +:+ nl
    +:+ "- Be creative and engaging" +:+ nl
    +:+ "- Maintain the requested tone throughout" +:+ nl
    +:+ "- Create a complete mini-narrative with a beginning, middle, and end".

(** [parts.join(sep)] *)
Fixpoint join (sep : string) (parts : list string) : string :=
  match parts with
  | [] => EmptyString
  | [p] => p
  | p :: rest => p +:+ sep +:+ join sep rest
  end.

Definition story_block (r : ModelResult) : string :=
  "--- " +:+ PROVIDER_DISPLAY_NAMES (provider r) +:+ " ---" +:+ nl
    +:+ story r +:+ nl
    +:+ "--- END " +:+ PROVIDER_DISPLAY_NAMES (provider r) +:+ " ---".

Definition getJudgePrompt (results : list ModelResult) (tone : Tone) (prompt : string)
  : string :=
  let storiesText := join (nl +:+ nl) (story_block <$> results) in
  "You are a literary judge comparing short stories from different AI models." +:+ nl
    +:+ nl
    +:+ "ORIGINAL PROMPT: " +:+ dq +:+ prompt +:+ dq +:+ nl
    +:+ "REQUESTED TONE: " +:+ tone_name tone
    +:+ " (" +:+ TONE_DESCRIPTIONS tone +:+ ")" +:+ nl
    +:+ "WORD LIMIT: " +:+ pretty WORD_LIMIT +:+ " words" +:+ nl
    +:+ nl
    +:+ storiesText +:+ nl
    +:+ nl
    +:+ "SCORING (0.0-1.0 numeric):" +:+ nl
    +:+ "- CREATIVITY: Originality, fresh perspective, avoidance of cliches" +:+ nl
    +:+ "- ENGAGEMENT: Hook, narrative momentum, readability" +:+ nl
    +:+ nl
    +:+ "CHECKS (pass/fail boolean):" +:+ nl
    +:+ "- TONE MATCH: Does it match the " +:+ dq +:+ tone_name tone +:+ dq
    +:+ " tone? (true = matches, false = doesn't match)" +:+ nl
    +:+ "- WORD COUNT: Is it under " +:+ pretty WORD_LIMIT
    +:+ " words? (true = under limit, false = over limit)" +:+ nl
    +:+ nl
    +:+ "WINNER SELECTION:" +:+ nl
    +:+ "Balance creativity and engagement scores against the checks. Failed checks are significant penalties - a story that fails a check needs notably higher scores to compensate."
    +:+ nl
    +:+ nl
    +:+ "Provide scores/checks and brief reason for each provider, then declare an overall winner with reasoning.".

(** ** lib.ts *)

Record GenerationConfig : Type := {
  config_provider : Provider;
  config_model : string;
}.

Definition MODELS : list GenerationConfig :=
  [ {| config_provider := openai; config_model := "gpt-5-nano" |};
    {| config_provider := anthropic; config_model := "claude-haiku-4-5" |} ].

(** A model handle of the AI SDK: which provider package made it, and the
    model id it was given. *)
Inductive LanguageModel : Type :=
| openai_model (id : string)
| anthropic_model (id : string)
| groq_model (id : string).

Definition JUDGE_MODEL : LanguageModel := groq_model "openai/gpt-oss-120b".

(** The [default:] branch of the switch throws for a provider that is
    neither; no value of type [Provider] reaches it. *)
Definition getModel (config : GenerationConfig) : LanguageModel :=
  match config_provider config with
  | openai => openai_model (config_model config)
  | anthropic => anthropic_model (config_model config)
  end.

(** What [generateText] resolves to, as far as [generateStory] reads it:
    [usage] may be missing, and so may its [totalTokens]. *)
Record LanguageModelUsage : Type := {
  totalTokens : option Z;
}.

Record GenerateTextResult : Type := {
  text : string;
  usage : option LanguageModelUsage;
}.

(** [a ?? b] *)
Definition nullish {A} (a : option A) (b : A) : A :=
  match a with
  | Some v => v
  | None => b
  end.

Section Environment.

(** The hosted text models: one call, which resolves or rejects. *)
Variable generateText :
  LanguageModel -> string -> string -> settled GenerateTextResult.

(** The two readings of [Date.now()] around the call made for a config. *)
Variable clock : GenerationConfig -> Z * Z.

Definition generateStory (config : GenerationConfig) (prompt : string) (tone : Tone)
  : settled ModelResult :=
  let start := fst (clock config) in
  match generateText (getModel config) (getStorySystemPrompt tone) prompt with
  | Fulfilled r =>
      Fulfilled
        {| provider := config_provider config;
           model := config_model config;
           story := text r;
           generationMs := snd (clock config) - start;
           tokens := nullish (usage r ≫= totalTokens) 0 |}
  | Rejected e => Rejected e
  end.

End Environment.

(** ** [Promise.all]

    One slot per input promise, in input order: [None] while it is pending.
    The combined promise fulfils with the values in input order once every
    input has fulfilled, and rejects with the reason of the first input
    that rejects; once it has settled, later inputs change nothing. *)
Module PromiseAll.
Section PromiseAll.
Context {A : Type}.

Inductive state : Type :=
| Pending
| Resolved (r : settled (list A)).

Definition collect (slots : list (option (settled A))) : option (list A) :=
  mapM (fun slot => slot ≫= fulfilled_value) slots.

Definition create (n : nat) : list (option (settled A)) * state :=
  (replicate n None,
   match n with
   | O => Resolved (Fulfilled [])
   | S _ => Pending
   end).

Definition settle (i : nat) (r : settled A)
    (slots : list (option (settled A))) (all : state)
  : list (option (settled A)) * state :=
  let slots' := <[i := Some r]> slots in
  (slots',
   match all with
   | Pending =>
       match r with
       | Rejected e => Resolved (Rejected e)
       | Fulfilled _ =>
           match collect slots' with
           | Some values => Resolved (Fulfilled values)
           | None => Pending
           end
       end
   | Resolved _ => all
   end).

(** The combined promise agrees with its inputs. *)
Definition consistent (slots : list (option (settled A))) (all : state) : Prop :=
  match all with
  | Pending =>
      (exists i, slots !! i = Some None)
      /\ (forall i e, slots !! i <> Some (Some (Rejected e)))
  | Resolved (Fulfilled values) => collect slots = Some values
  | Resolved (Rejected e) => exists i, slots !! i = Some (Some (Rejected e))
  end.
End PromiseAll.
Arguments state : clear implicits.
End PromiseAll.

(** [generateObject] of the AI SDK: one call to the model, whose output is
    parsed with the schema it was given; an output the schema refuses makes
    the call reject, like a failed call does. *)
Section GenerateObject.
(** The raw object a model returns for a prompt, or the failure of the call. *)
Variable structuredOutput : LanguageModel -> string -> settled json.
(** What the SDK throws for an output that fails the schema. *)
Variable noObjectGenerated : thrown.

Definition generateObject {A} (m : LanguageModel) (schema : z.schema A)
    (prompt : string) : settled A :=
  match structuredOutput m prompt with
  | Fulfilled output =>
      match schema output with
      | Some object => Fulfilled object
      | None => Rejected noObjectGenerated
      end
  | Rejected e => Rejected e
  end.
End GenerateObject.

(** [error instanceof Error ? error.message : "Unknown error"] *)
Definition error_message (error : thrown) : string :=
  match error with
  | ErrorObj message => message
  | NonError => "Unknown error"
  end.

(** One [stream.writeSSE] call.  [sse_data] is the value handed to
    [JSON.stringify]. *)
Record SSEMessage : Type := {
  sse_event : string;
  sse_data : json;
  sse_id : string;
}.

(** The labels of the event loop: which awaited promise settles next. *)
Inductive label : Type :=
| settle (i : nat)
| resume
| judge_settles.

(** ** route.ts: the [/stream] handler *)
Module Route.

Definition FIXED_PROMPT : string := "A robot discovers it can dream".
Definition FIXED_TONE : Tone := sci_fi.

Definition competitor (m : GenerationConfig) : json :=
  JObj [("provider", JStr (provider_name (config_provider m)));
        ("displayName", JStr (PROVIDER_DISPLAY_NAMES (config_provider m)));
        ("model", JStr (config_model m))].

Definition start_event (models : list GenerationConfig) : SSEMessage :=
  {| sse_event := "start";
     sse_data := JObj [("prompt", JStr FIXED_PROMPT);
                       ("tone", JStr (tone_name FIXED_TONE));
                       ("providers", JArr (competitor <$> models))];
     sse_id := "start" |}.

Definition story_event (result : ModelResult) : SSEMessage :=
  {| sse_event := "story";
     sse_data := JObj [("provider", JStr (provider_name (provider result)));
                       ("displayName", JStr (PROVIDER_DISPLAY_NAMES (provider result)));
                       ("model", JStr (model result));
                       ("story", JStr (story result));
                       ("generationMs", JNum (number_of_Z (generationMs result)));
                       ("tokens", JNum (number_of_Z (tokens result)))];
     sse_id := "story-" +:+ provider_name (provider result) |}.

Definition provider_error_event (config : GenerationConfig) (message : string)
  : SSEMessage :=
  {| sse_event := "error";
     sse_data := JObj [("provider", JStr (provider_name (config_provider config)));
                       ("displayName", JStr (PROVIDER_DISPLAY_NAMES (config_provider config)));
                       ("error", JStr message)];
     sse_id := "error-" +:+ provider_name (config_provider config) |}.

Definition judging_event : SSEMessage :=
  {| sse_event := "judging";
     sse_data := JObj [("message", JStr "All stories complete, judge evaluating...")];
     sse_id := "judging" |}.

Definition complete_event (sessionId : string) (judgment : Judgment) : SSEMessage :=
  {| sse_event := "complete";
     sse_data :=
       JObj [("id", JStr sessionId);
             ("judgment",
              JObj (spread_set "winnerDisplayName"
                      (JStr (PROVIDER_DISPLAY_NAMES (winner judgment)))
                      (judgment_fields judgment)))];
     sse_id := "complete" |}.

Definition judge_error_event (message : string) : SSEMessage :=
  {| sse_event := "error";
     sse_data := JObj [("error", JStr ("Judge failed: " +:+ message))];
     sse_id := "judge-error" |}.

(** Where the handler is suspended. *)
Inductive Phase : Type :=
| AwaitAll                                (* [await Promise.all(promises)] *)
| AwaitJudge (input : list ModelResult)   (* [await generateObject(...)] *)
| Returned
| Threw (e : thrown).

Record State : Type := {
  phase : Phase;
  promises : list (option (settled unit));
  all : PromiseAll.state unit;
  results : list ModelResult;
  written : list SSEMessage;          (* oldest first *)
  judged : list (list ModelResult);   (* the [results] of each judge call *)
}.

Section Handler.
Variable generateText : LanguageModel -> string -> string -> settled GenerateTextResult.
Variable clock : GenerationConfig -> Z * Z.
Variable structuredOutput : LanguageModel -> string -> settled json.
Variable noObjectGenerated : thrown.
Variable sessionId : string.
(** The array the handler maps over; the route maps over [MODELS]. *)
Variable models : list GenerationConfig.

(** Up to [await Promise.all(promises)]: the start event is written and
    every [generateStory] call is in flight. *)
Definition init : State :=
  let '(slots, combined) := PromiseAll.create (length models) in
  {| phase := AwaitAll;
     promises := slots;
     all := combined;
     results := [];
     written := [start_event models];
     judged := [] |}.

(** The body of one mapped async function from the point where its
    [generateStory] call settles: the [try] pushes and writes the
    story, the [catch] writes the provider's error; either way the
    async function fulfils. *)
Definition story_task (config : GenerationConfig) (st : State)
  : settled unit * list ModelResult * list SSEMessage :=
  match generateStory generateText clock config FIXED_PROMPT FIXED_TONE with
  | Fulfilled result =>
      (Fulfilled (), results st ++ [result], written st ++ [story_event result])
  | Rejected error =>
      (Fulfilled (), results st,
       written st ++ [provider_error_event config (error_message error)])
  end.

Definition step (l : label) (st : State) : option State :=
  match l with
  | settle i =>
      match promises st !! i, models !! i with
      | Some None, Some config =>
          let '(outcome, results', written') := story_task config st in
          let '(slots, combined) :=
            PromiseAll.settle i outcome (promises st) (all st) in
          Some {| phase := phase st;
                  promises := slots;
                  all := combined;
                  results := results';
                  written := written';
                  judged := judged st |}
      | _, _ => None
      end
  | resume =>
      match phase st, all st with
      | AwaitAll, PromiseAll.Resolved (Fulfilled _) =>
          Some {| phase := AwaitJudge (results st);
                  promises := promises st;
                  all := all st;
                  results := results st;
                  written := written st ++ [judging_event];
                  judged := judged st ++ [results st] |}
      | AwaitAll, PromiseAll.Resolved (Rejected e) =>
          Some {| phase := Threw e;
                  promises := promises st;
                  all := all st;
                  results := results st;
                  written := written st;
                  judged := judged st |}
      | _, _ => None
      end
  | judge_settles =>
      match phase st with
      | AwaitJudge input =>
          let terminal :=
            match generateObject structuredOutput noObjectGenerated JUDGE_MODEL
                    JudgmentSchema (getJudgePrompt input FIXED_TONE FIXED_PROMPT) with
            | Fulfilled judgment => complete_event sessionId judgment
            | Rejected error => judge_error_event (error_message error)
            end in
          Some {| phase := Returned;
                  promises := promises st;
                  all := all st;
                  results := results st;
                  written := written st ++ [terminal];
                  judged := judged st |}
      | _ => None
      end
  end.

Fixpoint exec (ls : list label) (st : State) : option State :=
  match ls with
  | [] => Some st
  | l :: rest => step l st ≫= exec rest
  end.

Definition reachable (st : State) : Prop :=
  exists ls, exec ls init = Some st.

End Handler.
End Route.

(** ** agent.ts: the non-streaming handler *)
Module Agent.

Record ArenaInput : Type := {
  prompt : string;
  tone : Tone;
}.

Record ArenaOutput : Type := {
  id : string;
  output_results : list ModelResult;
  judgment : Judgment;
}.

Inductive Phase : Type :=
| AwaitAll                                 (* [await Promise.all(...)] *)
| AwaitJudge (results : list ModelResult)  (* [await judgeStories(...)] *)
| Settled (outcome : settled ArenaOutput). (* the handler's own promise *)

Record State : Type := {
  phase : Phase;
  promises : list (option (settled ModelResult));
  all : PromiseAll.state ModelResult;
  judged : list (list ModelResult);
}.

Section Handler.
Variable generateText : LanguageModel -> string -> string -> settled GenerateTextResult.
Variable clock : GenerationConfig -> Z * Z.
Variable structuredOutput : LanguageModel -> string -> settled json.
Variable noObjectGenerated : thrown.
Variable sessionId : string.
Variable models : list GenerationConfig.
Variable input : ArenaInput.

Definition judgeStories (results : list ModelResult) (tone : Tone) (prompt : string)
  : settled Judgment :=
  generateObject structuredOutput noObjectGenerated JUDGE_MODEL JudgmentSchema
    (getJudgePrompt results tone prompt).

Definition init : State :=
  let '(slots, combined) := PromiseAll.create (length models) in
  {| phase := AwaitAll; promises := slots; all := combined; judged := [] |}.

Definition step (l : label) (st : State) : option State :=
  match l with
  | settle i =>
      match promises st !! i, models !! i with
      | Some None, Some config =>
          let outcome := generateStory generateText clock config (prompt input) (tone input) in
          let '(slots, combined) :=
            PromiseAll.settle i outcome (promises st) (all st) in
          Some {| phase := phase st;
                  promises := slots;
                  all := combined;
                  judged := judged st |}
      | _, _ => None
      end
  | resume =>
      match phase st, all st with
      | AwaitAll, PromiseAll.Resolved (Fulfilled results) =>
          Some {| phase := AwaitJudge results;
                  promises := promises st;
                  all := all st;
                  judged := judged st ++ [results] |}
      | AwaitAll, PromiseAll.Resolved (Rejected e) =>
          Some {| phase := Settled (Rejected e);
                  promises := promises st;
                  all := all st;
                  judged := judged st |}
      | _, _ => None
      end
  | judge_settles =>
      match phase st with
      | AwaitJudge results =>
          let outcome :=
            match judgeStories results (tone input) (prompt input) with
            | Fulfilled judgment =>
                Fulfilled {| id := sessionId;
                             output_results := results;
                             judgment := judgment |}
            | Rejected e => Rejected e
            end in
          Some {| phase := Settled outcome;
                  promises := promises st;
                  all := all st;
                  judged := judged st |}
      | _ => None
      end
  end.

Fixpoint exec (ls : list label) (st : State) : option State :=
  match ls with
  | [] => Some st
  | l :: rest => step l st ≫= exec rest
  end.

Definition reachable (st : State) : Prop :=
  exists ls, exec ls init = Some st.

End Handler.
End Agent.

(** ** Reading the stream

    The vocabulary of the progress channel, as a client tells the events
    apart: by their name and, for the two kinds of [error], by the
    [provider] key of the payload. *)

Definition named (name : string) (m : SSEMessage) : bool :=
  bool_decide (sse_event m = name).

Definition payload_provider (m : SSEMessage) : option json :=
  prop "provider" (sse_data m).

Definition is_start (m : SSEMessage) : bool := named "start" m.
Definition is_judging (m : SSEMessage) : bool := named "judging" m.
Definition is_complete (m : SSEMessage) : bool := named "complete" m.

(** One provider's outcome: a story, or an error that names its provider. *)
Definition is_item (m : SSEMessage) : bool :=
  named "story" m
  || (named "error" m && match payload_provider m with Some _ => true | None => false end).

(** An error that names no provider. *)
Definition is_fatal (m : SSEMessage) : bool :=
  named "error" m && match payload_provider m with Some _ => false | None => true end.

Definition is_terminal (m : SSEMessage) : bool := is_complete m || is_fatal m.

(** [m] is the outcome of provider [p]. *)
Definition settles (p : Provider) (m : SSEMessage) : bool :=
  is_item m
  && match payload_provider m with
     | Some (JStr s) => bool_decide (s = provider_name p)
     | _ => false
     end.

(** The winner a [complete] payload announces. *)
Definition announced_winner (m : SSEMessage) : option json :=
  if is_complete m then prop "judgment" (sse_data m) ≫= prop "winner" else None.

(** The raw entries of a judge output, before the schema: the elements of
    an array-valued key of [scores] or [checks]. *)
Definition raw_entries (group dimension : string) (output : json) : list json :=
  match prop group output ≫= prop dimension with
  | Some (JArr items) => items
  | _ => []
  end.

(** Every entry of the four arrays of a judge output. *)
Definition all_raw_entries (output : json) : list json :=
  raw_entries "scores" "creativity" output ++ raw_entries "scores" "engagement" output
  ++ raw_entries "checks" "toneMatch" output ++ raw_entries "checks" "wordCount" output.

(** The provider id a raw entry names is one of [PROVIDERS]. *)
Definition names_known_provider (entry : json) : Prop :=
  exists p, p ∈ PROVIDERS /\ prop "provider" entry = Some (JStr (provider_name p)).

(** ** Sample environments *)
Module Samples.

Definition tale (s : string) (n : option Z) : settled GenerateTextResult :=
  Fulfilled {| text := s; usage := Some {| totalTokens := n |} |}.

Definition network_down : settled GenerateTextResult :=
  Rejected (ErrorObj "network error").

Definition both_succeed (m : LanguageModel) (system prompt : string)
  : settled GenerateTextResult :=
  match m with
  | openai_model _ => tale "The robot slept." (Some 42)
  | _ => tale "It dreamt of rain." (Some 57)
  end.

Definition openai_fails (m : LanguageModel) (system prompt : string)
  : settled GenerateTextResult :=
  match m with
  | openai_model _ => network_down
  | _ => tale "It dreamt of rain." (Some 57)
  end.

Definition all_fail (m : LanguageModel) (system prompt : string)
  : settled GenerateTextResult :=
  network_down.

(** A provider whose response carries no usage at all. *)
Definition no_usage (m : LanguageModel) (system prompt : string)
  : settled GenerateTextResult :=
  Fulfilled {| text := "abcdefgh"; usage := None |}.

Definition clock (config : GenerationConfig) : Z * Z := (1000, 1250).

Definition score_entry (p : string) (s : float) : json :=
  JObj [("provider", JStr p); ("score", JNum s); ("reason", JStr "vivid")].

Definition check_entry (p : string) (b : bool) : json :=
  JObj [("provider", JStr p); ("passed", JBool b); ("reason", JStr "fits")].

Definition verdict (w : string) (creat engage tone_ok count_ok : list json) : json :=
  JObj [("winner", JStr w);
        ("reasoning", JStr "tighter arc");
        ("scores", JObj [("creativity", JArr creat); ("engagement", JArr engage)]);
        ("checks", JObj [("toneMatch", JArr tone_ok); ("wordCount", JArr count_ok)])].

(** A verdict that scores and checks each of the given providers. *)
Definition full_verdict (w : string) (ps : list string) (s : float) : json :=
  verdict w ((fun p => score_entry p s) <$> ps) ((fun p => score_entry p s) <$> ps)
    ((fun p => check_entry p true) <$> ps) ((fun p => check_entry p true) <$> ps).

(** A judge that answers every prompt with the same output. *)
Definition judge_says (output : json) (m : LanguageModel) (prompt : string)
  : settled json :=
  Fulfilled output.

Definition judge_down (m : LanguageModel) (prompt : string) : settled json :=
  Rejected (ErrorObj "rate limited").

Definition mismatch : thrown :=
  ErrorObj "No object generated: response did not match schema.".

Definition session : string := "sess_1".

Definition arena_input : Agent.ArenaInput :=
  {| Agent.prompt := "A robot discovers it can dream"; Agent.tone := sci_fi |}.

(** A run of the [/stream] handler: which providers answer, what the
    judge outputs, and the order in which the promises settle. *)
Definition run
    (generateText : LanguageModel -> string -> string -> settled GenerateTextResult)
    (judge : LanguageModel -> string -> settled json) (ls : list label)
  : option Route.State :=
  Route.exec generateText clock judge mismatch session MODELS ls (Route.init MODELS).

Definition final
    (generateText : LanguageModel -> string -> string -> settled GenerateTextResult)
    (judge : LanguageModel -> string -> settled json) (ls : list label)
  : Route.State :=
  default (Route.init MODELS) (run generateText judge ls).

Definition anthropic_first : list label :=
  [settle 1%nat; settle 0%nat; resume; judge_settles].

Definition openai_first : list label :=
  [settle 0%nat; settle 1%nat; resume; judge_settles].

Definition agent_run
    (generateText : LanguageModel -> string -> string -> settled GenerateTextResult)
    (judge : LanguageModel -> string -> settled json) (ls : list label)
  : Agent.State :=
  default (Agent.init MODELS)
    (Agent.exec generateText clock judge mismatch session MODELS arena_input ls
       (Agent.init MODELS)).

(** Both providers answer and the judge scores both. *)
Definition fair_verdict : json :=
  full_verdict "anthropic" ["openai"; "anthropic"] 0.5.

Definition all_well : Route.State :=
  final both_succeed (judge_says fair_verdict) anthropic_first.

(** Both providers fail; the judge answers all the same. *)
Definition total_failure : Route.State :=
  final all_fail (judge_says (full_verdict "openai" [] 1)) anthropic_first.

(** OpenAI fails, Anthropic answers, and the judge names OpenAI. *)
Definition absent_winner : Route.State :=
  final openai_fails (judge_says (full_verdict "openai" ["anthropic"] 0.5))
    openai_first.

(** Both providers answer and the judge scores and checks neither. *)
Definition empty_verdict : json := verdict "openai" [] [] [] [].

Definition nobody_scored : Route.State :=
  final both_succeed (judge_says empty_verdict) openai_first.

(** A verdict whose scores are all 5. *)
Definition off_scale : json :=
  full_verdict "openai" ["openai"; "anthropic"] 5.

(** Both providers answer and the judge call fails. *)
Definition judge_unreachable : Route.State :=
  final both_succeed judge_down anthropic_first.

(** Both providers have answered and the failing judge call is pending. *)
Definition judge_pending : Route.State :=
  final both_succeed judge_down [settle 1%nat; settle 0%nat; resume].

(** The agent handler when OpenAI fails and Anthropic answers. *)
Definition agent_partial : Agent.State :=
  agent_run openai_fails (judge_says fair_verdict)
    [settle 1%nat; settle 0%nat; resume].

End Samples.

(** ** The invariant of the [/stream] handler

    [arrived] lists, in arrival order, the indices of the mapped promises
    that have settled.  Everything the handler holds is a function of it
    and of the phase. *)
Module RouteInv.
Import Route.

Section Inv.
Variable generateText : LanguageModel -> string -> string -> settled GenerateTextResult.
Variable clock : GenerationConfig -> Z * Z.
Variable structuredOutput : LanguageModel -> string -> settled json.
Variable noObjectGenerated : thrown.
Variable sessionId : string.
Variable models : list GenerationConfig.

Definition outcome (config : GenerationConfig) : settled ModelResult :=
  generateStory generateText clock config FIXED_PROMPT FIXED_TONE.

(** The one event the task of [config] writes. *)
Definition item_event (config : GenerationConfig) : SSEMessage :=
  match outcome config with
  | Fulfilled result => story_event result
  | Rejected error => provider_error_event config (error_message error)
  end.

(** What the judge call made with [input] settles to. *)
Definition verdict (input : list ModelResult) : settled Judgment :=
  generateObject structuredOutput noObjectGenerated JUDGE_MODEL JudgmentSchema
    (getJudgePrompt input FIXED_TONE FIXED_PROMPT).

Definition terminal_event (input : list ModelResult) : SSEMessage :=
  match verdict input with
  | Fulfilled judgment => complete_event sessionId judgment
  | Rejected error => judge_error_event (error_message error)
  end.

Definition configs_of (arrived : list nat) : list GenerationConfig :=
  omap (fun i => models !! i) arrived.

Definition tail_events (st : State) : list SSEMessage :=
  match phase st with
  | AwaitAll => []
  | AwaitJudge input => [judging_event]
  | Returned => [judging_event; terminal_event (results st)]
  | Threw _ => []
  end.

Record Inv (arrived : list nat) (st : State) : Prop := {
  inv_nodup : NoDup arrived;
  inv_bound : forall i, i ∈ arrived -> (i < length models)%nat;
  inv_length : length (promises st) = length models;
  inv_slots : forall i, (i < length models)%nat ->
    promises st !! i =
      Some (if decide (i ∈ arrived) then Some (Fulfilled ()) else None);
  inv_all :
    match all st with
    | PromiseAll.Pending => (length arrived < length models)%nat
    | PromiseAll.Resolved (Fulfilled _) => length arrived = length models
    | PromiseAll.Resolved (Rejected _) => False
    end;
  inv_results :
    results st = omap (fun c => fulfilled_value (outcome c)) (configs_of arrived);
  inv_written :
    written st =
      start_event models :: (item_event <$> configs_of arrived) ++ tail_events st;
  inv_phase :
    match phase st with
    | AwaitAll => judged st = []
    | AwaitJudge input =>
        input = results st /\ judged st = [results st]
        /\ length arrived = length models
    | Returned => judged st = [results st] /\ length arrived = length models
    | Threw _ => False
    end;
}.

End Inv.

Arguments inv_nodup {_ _ _ _ _ _ _ _} _.
Arguments inv_bound {_ _ _ _ _ _ _ _} _ _ _.
Arguments inv_length {_ _ _ _ _ _ _ _} _.
Arguments inv_slots {_ _ _ _ _ _ _ _} _ _ _.
Arguments inv_all {_ _ _ _ _ _ _ _} _.
Arguments inv_results {_ _ _ _ _ _ _ _} _.
Arguments inv_written {_ _ _ _ _ _ _ _} _.
Arguments inv_phase {_ _ _ _ _ _ _ _} _.
End RouteInv.

(** ** The invariant of the agent handler *)
Module AgentInv.
Import Agent.

Section Inv.
Variable generateText : LanguageModel -> string -> string -> settled GenerateTextResult.
Variable clock : GenerationConfig -> Z * Z.
Variable structuredOutput : LanguageModel -> string -> settled json.
Variable noObjectGenerated : thrown.
Variable sessionId : string.
Variable models : list GenerationConfig.
Variable input : ArenaInput.

Definition outcome (config : GenerationConfig) : settled ModelResult :=
  generateStory generateText clock config (prompt input) (tone input).

Record Inv (st : State) : Prop := {
  agent_length : length (promises st) = length models;
  agent_slots : forall i r, promises st !! i = Some (Some r) ->
    exists config, models !! i = Some config /\ r = outcome config;
  agent_all : PromiseAll.consistent (promises st) (all st);
  agent_phase :
    match phase st with
    | AwaitAll => judged st = []
    | AwaitJudge results =>
        all st = PromiseAll.Resolved (Fulfilled results) /\ judged st = [results]
    | Settled (Fulfilled out) =>
        all st = PromiseAll.Resolved (Fulfilled (output_results out))
        /\ judged st = [output_results out]
        /\ id out = sessionId
        /\ judgeStories structuredOutput noObjectGenerated
             (output_results out) (tone input) (prompt input)
           = Fulfilled (judgment out)
    | Settled (Rejected e) =>
        (all st = PromiseAll.Resolved (Rejected e) /\ judged st = [])
        \/ (exists results,
              all st = PromiseAll.Resolved (Fulfilled results)
              /\ judged st = [results]
              /\ judgeStories structuredOutput noObjectGenerated
                   results (tone input) (prompt input) = Rejected e)
    end;
}.

End Inv.
End AgentInv.

(** [t] occurs in [s]. *)
Definition contains (s t : string) : Prop :=
  exists before after, s = before +:+ t +:+ after.

(** ** ModelArena.tsx: the client of the stream

    The component keeps an [ArenaState] and an [EventSource].  A payload is
    the value [JSON.parse] gives for the text the server made with
    [JSON.stringify]; a value read from it is a JSON value or [undefined]
    ([None]).  An event the server names [error] (or [open]) is dispatched
    as an event of that type, so the [onerror] (or [onopen]) handler sees
    it too, after the listeners registered before it. *)
Module Client.

Definition null : option json := Some JNull.

(** [v ? ... : ...]; of the numbers, [0], [-0] and [NaN] are falsy. *)
Definition truthy (v : option json) : bool :=
  match v with
  | None | Some JNull => false
  | Some (JBool b) => b
  | Some (JNum x) => negb (is_zero x || is_nan x)
  | Some (JStr s) => negb (bool_decide (s = EmptyString))
  | Some (JArr _) | Some (JObj _) => true
  end.

(** The key equality of a [Map]: by value for primitives, with [NaN] equal
    to itself and [0] to [-0]; two parsed arrays or objects are never the
    same object. *)
Definition same_value_zero (a b : option json) : bool :=
  match a, b with
  | None, None => true
  | Some JNull, Some JNull => true
  | Some (JBool x), Some (JBool y) => bool_decide (x = y)
  | Some (JNum x), Some (JNum y) => PrimFloat.eqb x y || (is_nan x && is_nan y)
  | Some (JStr x), Some (JStr y) => bool_decide (x = y)
  | _, _ => false
  end.

(** [new Map(m).set(k, v)]: a key already present keeps its place. *)
Fixpoint map_set {V} (k : option json) (v : V) (m : list (option json * V))
  : list (option json * V) :=
  match m with
  | [] => [(k, v)]
  | (k', v') :: rest =>
      if same_value_zero k' k then (k, v) :: rest else (k', v') :: map_set k v rest
  end.

(** [m.get(k)] *)
Fixpoint map_get {V} (k : option json) (m : list (option json * V)) : option V :=
  match m with
  | [] => None
  | (k', v') :: rest => if same_value_zero k' k then Some v' else map_get k rest
  end.

Inductive ArenaStatus : Type :=
| idle | connecting | generating | judging | complete | error.

Record ArenaState : Type := {
  status : ArenaStatus;
  prompt : option json;
  tone : option json;
  providers : option json;
  stories : list (option json * json);
  errors : list (option json * option json);
  judgment : option json;
  globalError : option json;
}.

Inductive ReadyState : Type := CONNECTING | OPEN | CLOSED.

Record Client : Type := {
  state : ArenaState;
  readyState : ReadyState;
}.

(** The state [startArena] and [reset] write, up to the status. *)
Definition blank (s : ArenaStatus) : ArenaState :=
  {| status := s;
     prompt := null;
     tone := null;
     providers := Some (JArr []);
     stories := [];
     errors := [];
     judgment := null;
     globalError := null |}.

(** [startArena], up to the registration of the handlers. *)
Definition startArena : Client :=
  {| state := blank connecting; readyState := CONNECTING |}.

Definition reset (c : Client) : Client :=
  {| state := blank idle; readyState := CLOSED |}.

Definition with_status (s : ArenaStatus) (prev : ArenaState) : ArenaState :=
  {| status := s;
     prompt := prompt prev;
     tone := tone prev;
     providers := providers prev;
     stories := stories prev;
     errors := errors prev;
     judgment := judgment prev;
     globalError := globalError prev |}.

(** [eventSource.onopen] *)
Definition onopen (c : Client) : Client :=
  {| state := with_status generating (state c); readyState := readyState c |}.

(** The listeners.  [None]: the state updater throws, reading a key of
    [null]. *)
Definition on_start (data : json) (prev : ArenaState) : option ArenaState :=
  match data with
  | JNull => None
  | _ =>
      Some {| status := status prev;
              prompt := prop "prompt" data;
              tone := prop "tone" data;
              providers := prop "providers" data;
              stories := stories prev;
              errors := errors prev;
              judgment := judgment prev;
              globalError := globalError prev |}
  end.

Definition on_story (data : json) (prev : ArenaState) : option ArenaState :=
  match data with
  | JNull => None
  | _ =>
      Some {| status := status prev;
              prompt := prompt prev;
              tone := tone prev;
              providers := providers prev;
              stories := map_set (prop "provider" data) data (stories prev);
              errors := errors prev;
              judgment := judgment prev;
              globalError := globalError prev |}
  end.

(** The [error] listener reads the payload inside a [try], so it never
    throws: a [null] payload is skipped. *)
Definition on_error (data : json) (c : Client) : Client :=
  match data with
  | JNull => c
  | _ =>
      let prev := state c in
      if truthy (prop "provider" data) then
        {| state :=
             {| status := status prev;
                prompt := prompt prev;
                tone := tone prev;
                providers := providers prev;
                stories := stories prev;
                errors := map_set (prop "provider" data) (prop "error" data) (errors prev);
                judgment := judgment prev;
                globalError := globalError prev |};
           readyState := readyState c |}
      else
        {| state :=
             {| status := error;
                prompt := prompt prev;
                tone := tone prev;
                providers := providers prev;
                stories := stories prev;
                errors := errors prev;
                judgment := judgment prev;
                globalError := prop "error" data |};
           readyState := CLOSED |}
  end.

Definition on_judging (prev : ArenaState) : ArenaState := with_status judging prev.

Definition on_complete (data : json) (c : Client) : option Client :=
  match data with
  | JNull => None
  | _ =>
      let prev := state c in
      Some {| state :=
                {| status := complete;
                   prompt := prompt prev;
                   tone := tone prev;
                   providers := providers prev;
                   stories := stories prev;
                   errors := errors prev;
                   judgment := prop "judgment" data;
                   globalError := globalError prev |};
              readyState := CLOSED |}
  end.

(** [eventSource.onerror] *)
Definition onerror (c : Client) : Client :=
  match readyState c with
  | CLOSED => c
  | _ =>
      let prev := state c in
      {| state :=
           match status prev with
           | complete => prev
           | _ =>
               {| status := error;
                  prompt := prompt prev;
                  tone := tone prev;
                  providers := providers prev;
                  stories := stories prev;
                  errors := errors prev;
                  judgment := judgment prev;
                  globalError := Some (JStr "Connection lost") |}
           end;
         readyState := CLOSED |}
  end.

Definition with_state (c : Client) (s : ArenaState) : Client :=
  {| state := s; readyState := readyState c |}.

(** One message of the stream reaches the [EventSource]. *)
Definition deliver (m : SSEMessage) (c : Client) : option Client :=
  match readyState c with
  | CLOSED => Some c
  | _ =>
      if named "start" m then with_state c <$> on_start (sse_data m) (state c)
      else if named "story" m then with_state c <$> on_story (sse_data m) (state c)
      else if named "error" m then Some (onerror (on_error (sse_data m) c))
      else if named "judging" m then Some (with_state c (on_judging (state c)))
      else if named "complete" m then on_complete (sse_data m) c
      else if named "open" m then Some (onopen c)
      else Some c
  end.

Fixpoint feed (ms : list SSEMessage) (c : Client) : option Client :=
  match ms with
  | [] => Some c
  | m :: rest => deliver m c ≫= feed rest
  end.

(** The connection is established: the browser opens the source and fires
    [open]. *)
Definition connected (c : Client) : Client :=
  match readyState c with
  | CLOSED => c
  | _ => onopen {| state := state c; readyState := OPEN |}
  end.

(** The connection fails: the browser fires an [error] event without data,
    after it has set the source to reconnect or, for a fatal failure,
    closed it; the [error] listener skips the event. *)
Definition connection_lost (fatal : bool) (c : Client) : Client :=
  match readyState c with
  | CLOSED => c
  | _ => onerror {| state := state c;
                    readyState := if fatal then CLOSED else CONNECTING |}
  end.

(** What the client holds after it has opened the stream and read [ms]. *)
Definition watch (ms : list SSEMessage) : option Client :=
  feed ms (connected startArena).

(** The entry the story event of a result leaves in [stories]. *)
Definition story_entry (r : ModelResult) : option json * json :=
  (Some (JStr (provider_name (provider r))), sse_data (Route.story_event r)).

(** [ProgressStepper]: the status of a step. *)
Inductive StepStatus : Type := step_pending | step_active | step_complete | step_error.

Definition getStepStatus (status : ArenaStatus) (storiesComplete : nat) (stepId : string)
  : StepStatus :=
  match status with
  | error =>
      if bool_decide (stepId = "generate") && negb (Nat.eqb storiesComplete 0)
      then step_complete
      else if bool_decide (stepId = "generate") then step_error
      else step_pending
  | _ =>
      if bool_decide (stepId = "generate") then
        match status with
        | connecting | generating => step_active
        | judging | complete => step_complete
        | _ => step_pending
        end
      else if bool_decide (stepId = "judge") then
        match status with
        | judging => step_active
        | complete => step_complete
        | _ => step_pending
        end
      else step_pending
  end.

End Client.

(** ** More sample runs *)
Module MoreSamples.

(** The agent handler when both providers answer and the judge scores both,
    Anthropic settling first. *)
Definition agent_all_well : Agent.State :=
  Samples.agent_run Samples.both_succeed (Samples.judge_says Samples.fair_verdict)
    [settle 1%nat; settle 0%nat; resume; judge_settles].

(** The [/stream] handler while Anthropic has answered and OpenAI has not. *)
Definition halfway : Route.State :=
  Samples.final Samples.both_succeed (Samples.judge_says Samples.fair_verdict)
    [settle 1%nat].

Definition a_result : ModelResult :=
  {| provider := anthropic;
     model := "claude-haiku-4-5";
     story := "It dreamt of rain.";
     generationMs := 250;
     tokens := 57 |}.

(** The same story, from another model id, slower and with more tokens. *)
Definition a_result_retimed : ModelResult :=
  {| provider := anthropic;
     model := "claude-sonnet";
     story := "It dreamt of rain.";
     generationMs := 9000;
     tokens := 300 |}.

End MoreSamples.

(** ** vector/agent.ts: the product search agent

    The vector store of the SDK ([exists], [upsert], [search]), the sample
    products, the model behind [generateObject] and the way a number is
    printed in a template literal are the environment. *)
Module Vector.

Record ProductMetadata : Type := {
  sku : string;
  name : string;
  price : float;
  avg_rating : float;
  description : string;
  customer_feedback : string;
}.

Definition namespace : string := "sdk-explorer".
Definition SIMILARITY_THRESHOLD : float := 0.3.
Definition SEARCH_LIMIT : Z := 3.

Record UpsertParams : Type := {
  key : string;
  document : string;
  metadata : ProductMetadata;
}.

Record SearchParams : Type := {
  query : string;
  limit : Z;
  similarity : float;
}.

(** A search result, as far as the handler reads it; [None] is a metadata
    that is [null] or missing. *)
Record SearchResult : Type := {
  result_metadata : option ProductMetadata;
  result_similarity : float;
}.

Record Input : Type := {
  input_query : string;
  seedData : option bool;
}.

Record Match : Type := {
  match_sku : string;
  match_name : string;
  match_price : float;
  match_rating : float;
  match_similarity : float;
}.

Record Output : Type := {
  matches : list Match;
  recommendation : string;
  recommendedSKU : string;
}.

Record Recommendation : Type := {
  summary : string;
  recommended : string;
}.

Definition RecommendationSchema : z.schema Recommendation :=
  fun j =>
    s ← z.field "summary" z.string j;
    r ← z.field "recommendedSKU" z.string j;
    Some {| summary := s; recommended := r |}.

Definition SYSTEM : string :=
  "You are a furniture consultant. Provide a brief 2-3 sentence recommendation based on the search results. Reference customer feedback when relevant.".

Definition NO_MATCH : string :=
  "No matching products found. Try seeding sample data first, or search for chairs/office furniture.".

Section Handler.
Variable Store : Type.
Variable vector_exists : Store -> string -> settled bool.
Variable vector_upsert : Store -> string -> UpsertParams -> Store * settled unit.
Variable vector_search : Store -> string -> SearchParams -> settled (list SearchResult).
Variable sampleProducts : list ProductMetadata.
Variable structuredOutput : string -> LanguageModel -> string -> settled json.
Variable noObjectGenerated : thrown.
Variable show : float -> string.

(** What the handler has done to the world: the store, and the prompts it
    has sent to the model. *)
Record World : Type := {
  store : Store;
  asked : list string;
}.

(** An awaited step: it leaves a world and fulfils or rejects; a rejection
    ends the handler. *)
Definition M (A : Type) : Type := World -> World * settled A.

Definition ret {A} (a : A) : M A := fun w => (w, Fulfilled a).

Definition bind {A B} (m : M A) (k : A -> M B) : M B :=
  fun w =>
    match m w with
    | (w', Fulfilled a) => k a w'
    | (w', Rejected e) => (w', Rejected e)
    end.

Definition exists_ (ns : string) : M bool :=
  fun w => (w, vector_exists (store w) ns).

Definition upsert (ns : string) (params : UpsertParams) : M unit :=
  fun w =>
    let '(s, r) := vector_upsert (store w) ns params in
    ({| store := s; asked := asked w |}, r).

Definition search (ns : string) (params : SearchParams) : M (list SearchResult) :=
  fun w => (w, vector_search (store w) ns params).

Definition ask {A} (m : LanguageModel) (system prompt : string) (schema : z.schema A)
  : M A :=
  fun w =>
    ({| store := store w; asked := asked w ++ [prompt] |},
     generateObject (structuredOutput system) noObjectGenerated m schema prompt).

Definition seed_params (product : ProductMetadata) : UpsertParams :=
  {| key := sku product;
     document := name product +:+ ": " +:+ description product +:+ " "
                   +:+ customer_feedback product;
     metadata := product |}.

(** [for (const product of products) await ctx.vector.upsert(...)] *)
Fixpoint seed (products : list ProductMetadata) : M unit :=
  match products with
  | [] => ret ()
  | product :: rest => bind (upsert namespace (seed_params product)) (fun _ => seed rest)
  end.

(** The store after the upserts of [products], in order. *)
Definition upserted (products : list ProductMetadata) (s : Store) : Store :=
  fold_left (fun s product => (vector_upsert s namespace (seed_params product)).1)
    products s.

(** The [if (seedData)] block. *)
Definition seeding (input : Input) : M unit :=
  match seedData input with
  | Some true =>
      bind (exists_ namespace) (fun present =>
        if present then ret () else seed sampleProducts)
  | _ => ret ()
  end.

Definition to_match (m : ProductMetadata) (r : SearchResult) : Match :=
  {| match_sku := sku m;
     match_name := name m;
     match_price := price m;
     match_rating := avg_rating m;
     match_similarity := result_similarity r |}.

Definition context_line (m : ProductMetadata) : string :=
  name m +:+ ": SKU " +:+ sku m +:+ ", $" +:+ show (price m) +:+ ", "
    +:+ show (avg_rating m) +:+ " stars. " +:+ dq +:+ customer_feedback m +:+ dq.

(** [results.filter((r) => r.metadata != null)], each result with its
    metadata. *)
Definition with_metadata (results : list SearchResult)
  : list (ProductMetadata * SearchResult) :=
  omap (fun r => (fun m => (m, r)) <$> result_metadata r) results.

Definition recommendation_prompt (q : string)
    (found : list (ProductMetadata * SearchResult)) : string :=
  "Customer searched for: " +:+ dq +:+ q +:+ dq +:+ nl +:+ nl
    +:+ "Matching products:" +:+ nl
    +:+ join nl ((fun mr => context_line mr.1) <$> found).

Definition handler (input : Input) : M Output :=
  bind (seeding input) (fun _ =>
  bind (search namespace
          {| query := input_query input;
             limit := SEARCH_LIMIT;
             similarity := SIMILARITY_THRESHOLD |}) (fun results =>
  match results with
  | [] => ret {| matches := []; recommendation := NO_MATCH; recommendedSKU := EmptyString |}
  | _ =>
      let resultsWithMetadata := with_metadata results in
      let matches := (fun mr => to_match mr.1 mr.2) <$> resultsWithMetadata in
      bind (ask (openai_model "gpt-5-mini") SYSTEM
              (recommendation_prompt (input_query input) resultsWithMetadata)
              RecommendationSchema) (fun recommendation =>
      ret {| matches := matches;
             recommendation := summary recommendation;
             recommendedSKU := recommended recommendation |})
  end)).

End Handler.

Arguments store {Store} w.
Arguments asked {Store} w.

(** A store that keeps what it is given, finds it by key, and answers
    every search with the same results. *)
Module Sample.
Definition chair : ProductMetadata :=
  {| sku := "CH-1"; name := "Task chair"; price := 199; avg_rating := 4.5;
     description := "Mesh back"; customer_feedback := "Firm but fair" |}.

Definition stool : ProductMetadata :=
  {| sku := "ST-2"; name := "Bar stool"; price := 89; avg_rating := 4;
     description := "Oak"; customer_feedback := "Wobbles" |}.

Definition products : list ProductMetadata := [chair; stool].

Definition has_data (s : list UpsertParams) (ns : string) : settled bool :=
  Fulfilled (match s with [] => false | _ => true end).

Definition put (s : list UpsertParams) (ns : string) (params : UpsertParams)
  : list UpsertParams * settled unit :=
  (s ++ [params], Fulfilled ()).

(** The second result has lost its metadata. *)
Definition hits : list SearchResult :=
  [ {| result_metadata := Some chair; result_similarity := 0.8 |};
    {| result_metadata := None; result_similarity := 0.5 |} ].

Definition find (s : list UpsertParams) (ns : string) (params : SearchParams)
  : settled (list SearchResult) :=
  Fulfilled (match s with [] => [] | _ => hits end).

Definition advisor (system : string) (m : LanguageModel) (prompt : string) : settled json :=
  Fulfilled (JObj [("summary", JStr "Take the chair."); ("recommendedSKU", JStr "CH-1")]).

Definition show (x : float) : string := "n".

Definition empty_world : World (list UpsertParams) := {| store := []; asked := [] |}.

Definition run (input : Input) (w : World (list UpsertParams))
  : World (list UpsertParams) * settled Output :=
  handler (list UpsertParams) has_data put find products advisor Samples.mismatch show
    input w.
End Sample.
End Vector.

(** * Proofs *)

(** * Facts about [Promise.all] *)
Section PromiseAllFacts.
Context {A : Type}.
Implicit Types (slots : list (option (settled A))) (all : PromiseAll.state A).

Lemma collect_Some_lookup slots values i :
  PromiseAll.collect slots = Some values ->
  (i < length slots)%nat ->
  exists a, slots !! i = Some (Some (Fulfilled a)).
Proof.
  intros Hc Hi. apply mapM_Some in Hc.
  destruct (lookup_lt_is_Some_2 slots i Hi) as [slot Hslot].
  destruct (Forall2_lookup_l _ _ _ _ _ Hc Hslot) as (a & _ & Ha).
  exists a. rewrite Hslot. f_equal.
  destruct slot as [[b|e]|]; simpl in Ha; congruence.
Qed.

Lemma collect_is_Some slots :
  (forall i slot, slots !! i = Some slot -> exists a, slot = Some (Fulfilled a)) ->
  is_Some (PromiseAll.collect slots).
Proof.
  intros H. apply mapM_is_Some, Forall_lookup. intros i slot Hslot.
  destruct (H i slot Hslot) as [a ->]. simpl. eauto.
Qed.

Lemma collect_None_pending slots :
  PromiseAll.collect slots = None ->
  (forall i e, slots !! i <> Some (Some (Rejected e))) ->
  exists i, slots !! i = Some None.
Proof.
  intros Hc Hrej. apply mapM_None, Exists_exists in Hc.
  destruct Hc as (slot & Hin & Hnone).
  apply list_elem_of_lookup in Hin as [i Hi]. exists i.
  destruct slot as [[a|e]|]; simpl in Hnone; try discriminate; [|done].
  by destruct (Hrej i e).
Qed.

Lemma create_consistent n :
  PromiseAll.consistent (PromiseAll.create (A:=A) n).1 (PromiseAll.create n).2.
Proof.
  destruct n as [|n]; simpl; [done|]. split.
  - by exists 0%nat.
  - intros i e Hi. destruct i; simpl in Hi; [done|].
    apply lookup_replicate in Hi as [? _]. done.
Qed.

Lemma settle_consistent slots all i r :
  PromiseAll.consistent slots all ->
  slots !! i = Some None ->
  PromiseAll.consistent (PromiseAll.settle i r slots all).1
                        (PromiseAll.settle i r slots all).2.
Proof.
  intros Hcons Hi.
  assert (Hlt : (i < length slots)%nat) by (by eapply lookup_lt_Some).
  destruct all as [|[values|e]]; simpl in *.
  - destruct Hcons as [_ Hrej]. destruct r as [a|e]; simpl.
    + destruct (PromiseAll.collect (<[i:=Some (Fulfilled a)]> slots)) as [values|] eqn:Hc;
        simpl; [done|].
      assert (Hrej' : forall j e,
                 <[i:=Some (Fulfilled a)]> slots !! j <> Some (Some (Rejected e))).
      { intros j e. destruct (decide (i = j)) as [<-|Hne].
        - by rewrite list_lookup_insert_eq.
        - rewrite list_lookup_insert_ne by done. apply Hrej. }
      split; [|done]. by apply collect_None_pending.
    + exists i. by rewrite list_lookup_insert_eq.
  - destruct (collect_Some_lookup _ _ i Hcons Hlt) as [a Ha]. congruence.
  - destruct Hcons as [j Hj]. exists j.
    rewrite list_lookup_insert_ne; [done|]. intros ->. congruence.
Qed.
End PromiseAllFacts.

(** * Arrival orders *)

Lemma arrived_all (arrived : list nat) (n : nat) :
  NoDup arrived ->
  (forall i, i ∈ arrived -> (i < n)%nat) ->
  length arrived = n ->
  arrived ≡ₚ seq 0 n.
Proof.
  intros Hnd Hb Hlen. apply submseteq_length_Permutation.
  - apply NoDup_submseteq; [done|]. intros i Hi. apply elem_of_seq. specialize (Hb i Hi). lia.
  - rewrite length_seq. lia.
Qed.

Lemma arrived_length (arrived : list nat) (n : nat) :
  NoDup arrived ->
  (forall i, i ∈ arrived -> (i < n)%nat) ->
  (length arrived <= n)%nat.
Proof.
  intros Hnd Hb. rewrite <- (length_seq n 0). apply submseteq_length.
  apply NoDup_submseteq; [done|]. intros i Hi. apply elem_of_seq. specialize (Hb i Hi). lia.
Qed.

Lemma arrived_full (arrived : list nat) (n : nat) :
  NoDup arrived ->
  (forall i, i ∈ arrived -> (i < n)%nat) ->
  (forall i, (i < n)%nat -> i ∈ arrived) ->
  length arrived = n.
Proof.
  intros Hnd Hb Hall. apply Nat.le_antisymm; [by apply arrived_length|].
  assert (Hsub : seq 0 n ⊆+ arrived).
  { apply NoDup_submseteq; [apply NoDup_seq|]. intros i Hi.
    apply elem_of_seq in Hi. apply Hall. lia. }
  apply submseteq_length in Hsub. by rewrite length_seq in Hsub.
Qed.

Lemma lookups_seq_from {A} (pre l : list A) :
  omap (fun i => (pre ++ l) !! i) (seq (length pre) (length l)) = l.
Proof.
  revert pre. induction l as [|x l IH]; intros pre; [done|].
  simpl. rewrite list_lookup_middle by done. f_equal.
  specialize (IH (pre ++ [x])).
  rewrite <- app_assoc, length_app, Nat.add_comm in IH. exact IH.
Qed.

Lemma lookups_seq {A} (l : list A) :
  omap (fun i => l !! i) (seq 0 (length l)) = l.
Proof. exact (lookups_seq_from [] l). Qed.

(** * The [/stream] handler keeps its invariant *)
Module RouteFacts.
Import Route RouteInv.

Section Facts.
Variable generateText : LanguageModel -> string -> string -> settled GenerateTextResult.
Variable clock : GenerationConfig -> Z * Z.
Variable structuredOutput : LanguageModel -> string -> settled json.
Variable noObjectGenerated : thrown.
Variable sessionId : string.
Variable models : list GenerationConfig.

Abbreviation step := (step generateText clock structuredOutput noObjectGenerated sessionId models).
Abbreviation exec := (exec generateText clock structuredOutput noObjectGenerated sessionId models).
Abbreviation reachable :=
  (reachable generateText clock structuredOutput noObjectGenerated sessionId models).
Abbreviation Inv := (Inv generateText clock structuredOutput noObjectGenerated sessionId models).
Abbreviation outcome := (outcome generateText clock).
Abbreviation item_event := (item_event generateText clock).
Abbreviation configs_of := (configs_of models).

Lemma exec_app ls1 ls2 st :
  exec (ls1 ++ ls2) st = exec ls1 st ≫= exec ls2.
Proof.
  revert st. induction ls1 as [|l ls1 IH]; intros st; simpl; [done|].
  destruct (step l st) as [st'|]; simpl; [apply IH|done].
Qed.

Lemma exec_cons l ls st : exec (l :: ls) st = step l st ≫= exec ls.
Proof. reflexivity. Qed.

Lemma story_task_eq config st :
  story_task generateText clock config st =
    (Fulfilled (),
     results st ++ omap (fun c => fulfilled_value (outcome c)) [config],
     written st ++ [item_event config]).
Proof.
  unfold story_task, RouteInv.item_event, RouteInv.outcome. simpl.
  destruct (generateStory _ _ _ _ _); simpl; [done|]. by rewrite app_nil_r.
Qed.

Lemma init_inv : Inv [] (init models).
Proof.
  unfold init. simpl. split; simpl.
  - constructor.
  - intros i Hi. by apply elem_of_nil in Hi.
  - apply length_replicate.
  - intros i Hi. by apply lookup_replicate_2.
  - destruct (length models); simpl; lia.
  - done.
  - done.
  - done.
Qed.

Lemma full_no_pending arrived st i :
  Inv arrived st ->
  length arrived = length models ->
  promises st !! i = Some None -> False.
Proof.
  intros HI Hlen Hi.
  assert (Hlt : (i < length models)%nat).
  { rewrite <- (inv_length HI). by eapply lookup_lt_Some. }
  rewrite (inv_slots HI i Hlt) in Hi.
  assert (i ∈ arrived).
  { rewrite (arrived_all arrived (length models)); [|apply HI..|done].
    apply elem_of_seq. lia. }
  by rewrite decide_True in Hi.
Qed.

Lemma settle_inv arrived st i st' :
  Inv arrived st -> step (settle i) st = Some st' -> Inv (arrived ++ [i]) st'.
Proof.
  intros HI Hstep. simpl in Hstep.
  destruct (promises st !! i) as [[|]|] eqn:Hslot; try discriminate.
  destruct (models !! i) as [config|] eqn:Hconfig; try discriminate.
  rewrite story_task_eq in Hstep. simpl in Hstep.
  injection Hstep as <-.
  assert (Hlt : (i < length models)%nat) by (by eapply lookup_lt_Some).
  assert (Hfresh : i ∉ arrived).
  { pose proof (inv_slots HI i Hlt) as Hs. rewrite Hslot in Hs.
    intros Hin. by rewrite decide_True in Hs. }
  assert (Hshort : (length arrived < length models)%nat).
  { pose proof (arrived_length arrived (length models)
                  (inv_nodup HI) (inv_bound HI)).
    destruct (decide (length arrived = length models)) as [Heq|]; [|lia].
    destruct (full_no_pending _ _ _ HI Heq Hslot). }
  assert (Hphase : phase st = AwaitAll).
  { pose proof (inv_phase HI) as Hp.
    destruct (phase st); [done|..]; try done; lia. }
  assert (Hnd : NoDup (arrived ++ [i])).
  { apply NoDup_app. split; [apply HI|]. split; [|apply NoDup_singleton].
    intros j Hj Hj'. apply list_elem_of_singleton in Hj'. by subst. }
  assert (Hb : forall j, j ∈ arrived ++ [i] -> (j < length models)%nat).
  { intros j Hj. apply elem_of_app in Hj as [Hj|Hj].
    - by apply (inv_bound HI).
    - apply list_elem_of_singleton in Hj. by subst. }
  assert (Hslots : forall j, (j < length models)%nat ->
            <[i:=Some (Fulfilled ())]> (promises st) !! j =
              Some (if decide (j ∈ arrived ++ [i]) then Some (Fulfilled ()) else None)).
  { intros j Hj. destruct (decide (i = j)) as [<-|Hne].
    - rewrite list_lookup_insert_eq by (by rewrite (inv_length HI)).
      rewrite decide_True; [done|]. apply elem_of_app. right. by left.
    - rewrite list_lookup_insert_ne by done.
      rewrite (inv_slots HI j Hj).
      destruct (decide (j ∈ arrived)) as [Hin|Hnin].
      + rewrite decide_True; [done|]. apply elem_of_app. by left.
      + rewrite decide_False; [done|]. intros Hin. apply elem_of_app in Hin as [?|Hin]; [done|].
        apply list_elem_of_singleton in Hin. by subst. }
  assert (Hconfigs : configs_of (arrived ++ [i]) = configs_of arrived ++ [config]).
  { unfold RouteInv.configs_of. rewrite omap_app. simpl. by rewrite Hconfig. }
  split; simpl.
  - done.
  - done.
  - rewrite length_insert. apply HI.
  - done.
  - pose proof (inv_all HI) as Hall.
    destruct (all st) as [|[values|e]]; [|simpl; lia|done].
    simpl.
    destruct (PromiseAll.collect (<[i:=Some (Fulfilled ())]> (promises st)))
      as [values|] eqn:Hc.
    + apply arrived_full; [done..|]. intros j Hj.
      destruct (collect_Some_lookup _ _ j Hc) as [a Ha].
      { by rewrite length_insert, (inv_length HI). }
      rewrite (Hslots j Hj) in Ha. by destruct (decide (j ∈ arrived ++ [i])).
    + pose proof (arrived_length _ _ Hnd Hb) as Hle.
      destruct (decide (length (arrived ++ [i]) = length models)) as [Heq|]; [|lia].
      exfalso.
      assert (Hsome : is_Some (PromiseAll.collect (<[i:=Some (Fulfilled ())]> (promises st)))).
      { apply collect_is_Some. intros j slot Hj.
        assert (Hjlt : (j < length models)%nat).
        { apply lookup_lt_Some in Hj.
          by rewrite length_insert, (inv_length HI) in Hj. }
        rewrite (Hslots j Hjlt) in Hj.
        rewrite decide_True in Hj; [injection Hj as <-; eauto|].
        rewrite (arrived_all _ _ Hnd Hb Heq). apply elem_of_seq. lia. }
      rewrite Hc in Hsome. by destruct Hsome.
  - rewrite Hconfigs, omap_app. f_equal. apply HI.
  - rewrite (inv_written HI). unfold tail_events. simpl.
    rewrite Hphase, Hconfigs, fmap_app, !app_nil_r. done.
  - rewrite Hphase. pose proof (inv_phase HI) as Hp.
    by rewrite Hphase in Hp.
Qed.

Lemma resume_inv arrived st st' :
  Inv arrived st -> step resume st = Some st' -> Inv arrived st'.
Proof.
  intros HI Hstep. simpl in Hstep.
  pose proof HI as [Hnd Hb Hlen Hslots Hall Hres Hwr Hph].
  destruct (phase st) eqn:Hphase; try discriminate.
  destruct (all st) as [|[values|e]] eqn:Hcomb; try discriminate; [|done].
  injection Hstep as <-. split; simpl; try done.
  - unfold tail_events in *. rewrite Hphase in Hwr. rewrite Hwr. simpl.
    by rewrite app_nil_r.
  - by rewrite Hph.
Qed.

Lemma judge_inv arrived st st' :
  Inv arrived st -> step judge_settles st = Some st' -> Inv arrived st'.
Proof.
  intros HI Hstep. simpl in Hstep.
  pose proof HI as [Hnd Hb Hlen Hslots Hall Hres Hwr Hph].
  destruct (phase st) eqn:Hphase; try discriminate.
  destruct Hph as (-> & Hj & Hfull).
  injection Hstep as <-. split; simpl; try done.
  unfold tail_events in *. rewrite Hphase in Hwr. rewrite Hwr. simpl.
  rewrite <- app_assoc. reflexivity.
Qed.

Lemma step_inv arrived l st st' :
  Inv arrived st -> step l st = Some st' ->
  Inv (match l with settle i => arrived ++ [i] | _ => arrived end) st'.
Proof.
  destruct l; [apply settle_inv|apply resume_inv|apply judge_inv].
Qed.

Lemma exec_inv ls arrived st st' :
  Inv arrived st -> exec ls st = Some st' -> exists arrived', Inv arrived' st'.
Proof.
  revert arrived st. induction ls as [|l ls IH]; intros arrived st HI Hexec; simpl in Hexec.
  - injection Hexec as <-. eauto.
  - destruct (step l st) as [st1|] eqn:Hstep; [|done]. simpl in Hexec.
    eapply IH; [|done]. by eapply step_inv.
Qed.

Lemma reachable_inv st : reachable st -> exists arrived, Inv arrived st.
Proof. intros [ls Hls]. eapply exec_inv; [apply init_inv|done]. Qed.

(** A pending promise can always settle, whatever the others did. *)
Lemma settle_enabled arrived st i :
  Inv arrived st -> (i < length models)%nat -> i ∉ arrived ->
  exists st', step (settle i) st = Some st' /\ phase st' = phase st.
Proof.
  intros HI Hlt Hfresh. simpl.
  rewrite (inv_slots HI i Hlt), decide_False by done.
  destruct (lookup_lt_is_Some_2 models i Hlt) as [config ->].
  rewrite story_task_eq. simpl. eauto.
Qed.

(** Every arrival order of the promises still pending can happen. *)
Lemma exec_arrivals_from arrived st order :
  Inv arrived st ->
  NoDup (arrived ++ order) ->
  (forall i, i ∈ order -> (i < length models)%nat) ->
  exists st', exec (settle <$> order) st = Some st'
              /\ Inv (arrived ++ order) st' /\ phase st' = phase st.
Proof.
  intros HI. induction order as [|i order IH] using rev_ind; intros Hnd Hb.
  - exists st. rewrite app_nil_r. done.
  - rewrite app_assoc in Hnd. apply NoDup_app in Hnd as (Hnd & Hfresh & _).
    destruct (IH Hnd) as (st1 & Hexec & HI1 & Hphase).
    { intros j Hj. apply Hb, elem_of_app. by left. }
    destruct (settle_enabled (arrived ++ order) st1 i HI1) as (st' & Hstep & Hphase').
    { apply Hb, elem_of_app. right. by left. }
    { intros Hin. apply (Hfresh i Hin). by left. }
    exists st'. rewrite fmap_app, exec_app, Hexec.
    change (exec [settle i] st1 = Some st'
            /\ Inv (arrived ++ order ++ [i]) st' /\ phase st' = phase st).
    rewrite exec_cons, Hstep, app_assoc.
    split; [done|]. split; [by eapply settle_inv|congruence].
Qed.

Lemma exec_arrivals order :
  NoDup order -> (forall i, i ∈ order -> (i < length models)%nat) ->
  exists st, exec (settle <$> order) (init models) = Some st
             /\ Inv order st /\ phase st = AwaitAll.
Proof.
  intros Hnd Hb. by apply (exec_arrivals_from [] (init models) order init_inv).
Qed.

(** Once every promise has settled the handler runs to its end. *)
Lemma exec_finish arrived st :
  Inv arrived st -> length arrived = length models -> phase st = AwaitAll ->
  exists st', exec [resume; judge_settles] st = Some st'
              /\ phase st' = Returned /\ Inv arrived st'.
Proof.
  intros HI Hfull Hphase.
  assert (exists st1, step resume st = Some st1 /\ phase st1 = AwaitJudge (results st))
    as (st1 & Hresume & Hphase1).
  { simpl. rewrite Hphase. pose proof (inv_all HI) as Hall.
    destruct (all st) as [|[values|e]]; [lia| |done]. eauto. }
  assert (exists st2, step judge_settles st1 = Some st2 /\ phase st2 = Returned)
    as (st2 & Hjudge & Hphase2).
  { simpl. rewrite Hphase1. eauto. }
  exists st2. rewrite exec_cons, Hresume.
  change (Some st1 ≫= exec [judge_settles]) with (exec [judge_settles] st1).
  rewrite exec_cons, Hjudge.
  split; [done|]. split; [done|].
  eapply judge_inv; [|done]. by eapply resume_inv.
Qed.

(** No reachable state is stuck before the handler has returned. *)
Lemma can_return st :
  reachable st -> exists ls st', exec ls st = Some st' /\ phase st' = Returned.
Proof.
  intros Hreach. destruct (reachable_inv st Hreach) as [arrived HI].
  pose proof HI as [Hnd Hb Hlen Hslots Hall Hres Hwr Hph].
  destruct (phase st) eqn:Hphase.
  - set (rest := filter (fun i => i ∉ arrived) (seq 0 (length models))).
    assert (Hrest : forall i, i ∈ rest <-> (i < length models)%nat /\ i ∉ arrived).
    { intros i. unfold rest. rewrite list_elem_of_filter, elem_of_seq. split.
      - intros [? ?]. split; [lia|done].
      - intros [? ?]. split; [done|lia]. }
    destruct (exec_arrivals_from arrived st rest HI) as (st1 & Hexec & HI1 & Hphase1).
    { apply NoDup_app. split; [done|]. split.
      - intros i Hi Hi'. apply Hrest in Hi'. tauto.
      - apply NoDup_filter, NoDup_seq. }
    { intros i Hi. by apply Hrest in Hi as [? _]. }
    destruct (exec_finish (arrived ++ rest) st1 HI1) as (st2 & Hfin & Hphase2 & _).
    { apply arrived_full; [apply HI1..|]. intros i Hi. apply elem_of_app.
      destruct (decide (i ∈ arrived)); [by left|right]. by apply Hrest. }
    { congruence. }
    exists ((settle <$> rest) ++ [resume; judge_settles]), st2.
    rewrite exec_app, Hexec. done.
  - exists [judge_settles]. simpl. rewrite Hphase. simpl. eauto.
  - exists [], st. done.
  - done.
Qed.
End Facts.
End RouteFacts.

Lemma omap_submseteq {A B} (f : A -> option B) (l1 l2 : list A) :
  l1 ⊆+ l2 -> omap f l1 ⊆+ omap f l2.
Proof.
  induction 1 as [|x l1 l2 _ IH|x y l|x l1 l2 _ IH|l1 l2 l3 _ IH1 _ IH2]; simpl.
  - done.
  - destruct (f x); [by constructor|done].
  - destruct (f x), (f y); try done. apply submseteq_swap.
  - destruct (f x); [by constructor|done].
  - by etrans.
Qed.

Lemma filter_submseteq {A} (P : A -> Prop) `{!forall x, Decision (P x)} (l1 l2 : list A) :
  l1 ⊆+ l2 -> filter P l1 ⊆+ filter P l2.
Proof.
  induction 1 as [|x l1 l2 _ IH|x y l|x l1 l2 _ IH|l1 l2 l3 _ IH1 _ IH2].
  - done.
  - rewrite !filter_cons. destruct (decide (P x)); [by constructor|done].
  - rewrite !filter_cons. destruct (decide (P x)), (decide (P y)); try done.
    apply submseteq_swap.
  - rewrite filter_cons. destruct (decide (P x)); [by constructor|done].
  - by etrans.
Qed.

Lemma last_two {A} (a : A) (l : list A) (x y : A) :
  last (a :: l ++ [x; y]) = Some y.
Proof.
  replace (a :: l ++ [x; y]) with ((a :: l ++ [x]) ++ [y])
    by (simpl; by rewrite <- app_assoc).
  apply last_snoc.
Qed.

(** * Reading the events the handler writes *)

Lemma provider_name_inj p q : provider_name p = provider_name q -> p = q.
Proof. by destruct p, q. Qed.

Lemma settles_story p r : settles p (Route.story_event r) = bool_decide (provider r = p).
Proof. by destruct p, r as [[] ? ? ? ?]. Qed.

Lemma settles_provider_error p c msg :
  settles p (Route.provider_error_event c msg) = bool_decide (config_provider c = p).
Proof. by destruct p, c as [[] ?]. Qed.

Lemma settles_complete p sid jd : settles p (Route.complete_event sid jd) = false.
Proof. done. Qed.

Lemma settles_judge_error p msg : settles p (Route.judge_error_event msg) = false.
Proof. done. Qed.

Module RouteStream.
Import Route RouteInv RouteFacts.

Section Stream.
Variable generateText : LanguageModel -> string -> string -> settled GenerateTextResult.
Variable clock : GenerationConfig -> Z * Z.
Variable structuredOutput : LanguageModel -> string -> settled json.
Variable noObjectGenerated : thrown.
Variable sessionId : string.
Variable models : list GenerationConfig.

Abbreviation Inv := (Inv generateText clock structuredOutput noObjectGenerated sessionId models).
Abbreviation item_event := (item_event generateText clock).
Abbreviation terminal_event := (terminal_event structuredOutput noObjectGenerated sessionId).
Abbreviation verdict := (verdict structuredOutput noObjectGenerated).
Abbreviation configs_of := (configs_of models).

Lemma outcome_provider config r :
  outcome generateText clock config = Fulfilled r -> provider r = config_provider config.
Proof.
  unfold outcome, generateStory. destruct (generateText _ _ _); [|done].
  by intros [= <-].
Qed.

Lemma settles_item p config :
  settles p (item_event config) = bool_decide (config_provider config = p).
Proof.
  unfold RouteInv.item_event.
  destruct (outcome generateText clock config) as [r|e] eqn:Hout.
  - rewrite settles_story. by rewrite (outcome_provider _ _ Hout).
  - apply settles_provider_error.
Qed.

Lemma is_item_item config : is_item (item_event config) = true.
Proof. unfold RouteInv.item_event. by destruct (outcome _ _ _) as [r|e]. Qed.

Lemma is_complete_item config : is_complete (item_event config) = false.
Proof. unfold RouteInv.item_event. by destruct (outcome _ _ _) as [r|e]. Qed.

Lemma is_judging_item config : is_judging (item_event config) = false.
Proof. unfold RouteInv.item_event. by destruct (outcome _ _ _) as [r|e]. Qed.

Lemma is_terminal_terminal input : is_terminal (terminal_event input) = true.
Proof. unfold RouteInv.terminal_event. by destruct (RouteInv.verdict _ _ _). Qed.

Lemma is_item_terminal input : is_item (terminal_event input) = false.
Proof. unfold RouteInv.terminal_event. by destruct (RouteInv.verdict _ _ _). Qed.

Lemma settles_terminal p input : settles p (terminal_event input) = false.
Proof. unfold settles. by rewrite is_item_terminal. Qed.

Lemma settles_tail p st : filter (settles p) (tail_events structuredOutput noObjectGenerated sessionId st) = [].
Proof.
  unfold tail_events. destruct (phase st); try done.
  rewrite filter_cons, decide_False by (by intros []).
  rewrite filter_cons, decide_False; [done|]. rewrite settles_terminal. by intros [].
Qed.

Lemma filter_settles_items p (configs : list GenerationConfig) :
  filter (settles p) (item_event <$> configs)
  = item_event <$> filter (fun c => config_provider c = p) configs.
Proof.
  induction configs as [|c configs IH]; [done|].
  rewrite fmap_cons, !filter_cons, IH, settles_item.
  destruct (decide (config_provider c = p)).
  - rewrite decide_True; [done|]. by apply bool_decide_pack.
  - rewrite decide_False; [done|]. by intros ?%bool_decide_unpack.
Qed.

(** The events of provider [p] in the stream are those of the settled
    configs of [p]. *)
Lemma count_settled arrived st p :
  Inv arrived st ->
  length (filter (settles p) (written st))
  = length (filter (fun c => config_provider c = p) (configs_of arrived)).
Proof.
  intros HI. rewrite (inv_written HI).
  rewrite filter_cons, decide_False by (by intros []).
  rewrite filter_app, settles_tail, app_nil_r, filter_settles_items.
  apply length_fmap.
Qed.

Lemma configs_sub arrived st : Inv arrived st -> configs_of arrived ⊆+ models.
Proof.
  intros HI. rewrite <- (lookups_seq models) at 2. apply omap_submseteq.
  apply NoDup_submseteq; [apply HI|]. intros i Hi. apply elem_of_seq.
  pose proof (inv_bound HI i Hi). lia.
Qed.

Lemma configs_full arrived st :
  Inv arrived st -> length arrived = length models -> configs_of arrived ≡ₚ models.
Proof.
  intros HI Hfull. rewrite <- (lookups_seq models) at 2.
  unfold RouteInv.configs_of. apply omap_Permutation.
  by apply arrived_all; [apply HI..|].
Qed.

Lemma phase_full arrived st :
  Inv arrived st -> phase st <> AwaitAll -> length arrived = length models.
Proof.
  intros HI Hphase. pose proof (inv_phase HI) as Hp.
  destruct (phase st); [done|..]; tauto.
Qed.

(** A [complete] event in the stream is the terminal event of a judge
    call that fulfilled. *)
Lemma complete_inv arrived st m :
  Inv arrived st -> m ∈ written st -> is_complete m = true ->
  phase st = Returned
  /\ exists judgment, verdict (results st) = Fulfilled judgment
                      /\ m = complete_event sessionId judgment
                      /\ last (written st) = Some m.
Proof.
  intros HI Hm Hc. rewrite (inv_written HI) in *.
  apply elem_of_cons in Hm as [->|Hm]; [done|].
  apply elem_of_app in Hm as [Hm|Hm].
  { apply list_elem_of_fmap in Hm as (c & -> & _). by rewrite is_complete_item in Hc. }
  unfold tail_events in *. destruct (phase st); try by inversion Hm.
  - apply list_elem_of_singleton in Hm as ->. done.
  - split; [done|]. apply elem_of_cons in Hm as [->|Hm]; [done|].
    apply list_elem_of_singleton in Hm as ->.
    unfold RouteInv.terminal_event in *.
    destruct (RouteInv.verdict _ _ _) as [judgment|e] eqn:Hv; [|done].
    exists judgment. split; [done|]. split; [done|].
    apply last_two.
Qed.

(** When the handler has returned, the last event is the terminal one. *)
Lemma returned_last arrived st :
  Inv arrived st -> phase st = Returned ->
  written st = start_event models :: (item_event <$> configs_of arrived)
                 ++ [judging_event; terminal_event (results st)]
  /\ last (written st) = Some (terminal_event (results st)).
Proof.
  intros HI Hphase. pose proof (inv_written HI) as Hw.
  unfold tail_events in Hw. rewrite Hphase in Hw. split; [done|].
  rewrite Hw. apply last_two.
Qed.
End Stream.
End RouteStream.

(** * What the schemas accept *)

Lemma enum_Some options j p :
  z.enum options j = Some p -> j = JStr (provider_name p) /\ p ∈ options.
Proof.
  destruct j; try done. simpl. intros Hfind.
  apply find_some in Hfind as [Hin Heq].
  apply bool_decide_eq_true in Heq as <-. split; [done|]. by apply list_elem_of_In.
Qed.

Lemma finite_eq (x y : finite) : value x = value y -> x = y.
Proof.
  destruct x as [x Hx], y as [y Hy]. simpl. intros ->. f_equal. apply proof_irrel.
Qed.

Lemma number_Some j x : z.number j = Some x -> j = JNum x.
Proof.
  destruct j; try done. simpl. destruct (decide _); [|done]. by intros [= <-].
Qed.

Lemma number_accepts x (isFinite : is_finite x = true) :
  z.number (JNum x) = Some (Finite x isFinite).
Proof.
  simpl. destruct (decide _) as [H|H]; [|done]. f_equal. by apply finite_eq.
Qed.


Lemma number_refuses x : is_finite x = false -> z.number (JNum x) = None.
Proof. intros H. simpl. destruct (decide _) as [H'|]; [congruence|done]. Qed.

Lemma field_Some {A} k (s : z.schema A) j a :
  z.field k s j = Some a -> exists v, prop k j = Some v /\ s v = Some a.
Proof.
  destruct j; try done. simpl. intros H. apply bind_Some in H as (v & ? & ?). eauto.
Qed.

Lemma array_Some {A} (s : z.schema A) j l :
  z.array s j = Some l ->
  exists items, j = JArr items /\ Forall2 (fun x y => s x = Some y) items l.
Proof.
  destruct j; try done. simpl. intros H. apply mapM_Some in H. eauto.
Qed.

Lemma ProviderScoreSchema_Some entry ps :
  ProviderScoreSchema entry = Some ps ->
  prop "provider" entry = Some (JStr (provider_name (score_provider ps)))
  /\ score_provider ps ∈ PROVIDERS
  /\ prop "score" entry = Some (JNum (score ps)).
Proof.
  unfold ProviderScoreSchema. intros H.
  apply bind_Some in H as (p & Hp & H).
  apply bind_Some in H as (q & Hq & H).
  apply bind_Some in H as (r & Hr & H). injection H as <-. simpl.
  apply field_Some in Hp as (v & Hv & Hp). apply enum_Some in Hp as [-> Hin].
  apply field_Some in Hq as (w & Hw & Hq). apply number_Some in Hq as ->.
  done.
Qed.

Lemma ProviderBinarySchema_Some entry pb :
  ProviderBinarySchema entry = Some pb ->
  prop "provider" entry = Some (JStr (provider_name (binary_provider pb)))
  /\ binary_provider pb ∈ PROVIDERS.
Proof.
  unfold ProviderBinarySchema. intros H.
  apply bind_Some in H as (p & Hp & H).
  apply bind_Some in H as (q & Hq & H).
  apply bind_Some in H as (r & Hr & H). injection H as <-. simpl.
  apply field_Some in Hp as (v & Hv & Hp). apply enum_Some in Hp as [-> Hin].
  done.
Qed.

Lemma raw_entries_array {A} group dimension (s : z.schema A) output so l :
  prop group output = Some so ->
  z.field dimension (z.array s) so = Some l ->
  Forall2 (fun x y => s x = Some y) (raw_entries group dimension output) l.
Proof.
  intros Hso Hl. apply field_Some in Hl as (v & Hv & Hl).
  apply array_Some in Hl as (items & -> & HF).
  unfold raw_entries. rewrite Hso. simpl. by rewrite Hv.
Qed.

Lemma JudgmentSchema_Some output jd :
  JudgmentSchema output = Some jd ->
  prop "winner" output = Some (JStr (provider_name (winner jd)))
  /\ winner jd ∈ PROVIDERS
  /\ Forall2 (fun x y => ProviderScoreSchema x = Some y)
       (raw_entries "scores" "creativity" output) (creativity (scores jd))
  /\ Forall2 (fun x y => ProviderScoreSchema x = Some y)
       (raw_entries "scores" "engagement" output) (engagement (scores jd))
  /\ Forall2 (fun x y => ProviderBinarySchema x = Some y)
       (raw_entries "checks" "toneMatch" output) (toneMatch (checks jd))
  /\ Forall2 (fun x y => ProviderBinarySchema x = Some y)
       (raw_entries "checks" "wordCount" output) (wordCount (checks jd)).
Proof.
  unfold JudgmentSchema. intros H.
  apply bind_Some in H as (w & Hw & H).
  apply bind_Some in H as (r & Hr & H).
  apply bind_Some in H as (s & Hs & H).
  apply bind_Some in H as (c & Hc & H). injection H as <-. simpl.
  apply field_Some in Hw as (v & Hv & Hw). apply enum_Some in Hw as [-> Hin].
  apply field_Some in Hs as (so & Hso & Hs).
  apply field_Some in Hc as (co & Hco & Hc).
  unfold ScoresSchema in Hs. apply bind_Some in Hs as (cr & Hcr & Hs).
  apply bind_Some in Hs as (en & Hen & Hs). injection Hs as <-.
  unfold ChecksSchema in Hc. apply bind_Some in Hc as (tm & Htm & Hc).
  apply bind_Some in Hc as (wc & Hwc & Hc). injection Hc as <-. simpl.
  split; [done|]. split; [done|].
  repeat split; by eapply raw_entries_array.
Qed.

Lemma schema_entries_known output jd :
  JudgmentSchema output = Some jd -> Forall names_known_provider (all_raw_entries output).
Proof.
  intros H. apply JudgmentSchema_Some in H as (_ & _ & Hc & He & Ht & Hw).
  unfold all_raw_entries. rewrite !Forall_app.
  repeat split; apply Forall_forall; intros entry Hin.
  - apply list_elem_of_lookup in Hin as [i Hi].
    destruct (Forall2_lookup_l _ _ _ _ _ Hc Hi) as (ps & _ & Hps).
    apply ProviderScoreSchema_Some in Hps as (? & ? & _). by exists (score_provider ps).
  - apply list_elem_of_lookup in Hin as [i Hi].
    destruct (Forall2_lookup_l _ _ _ _ _ He Hi) as (ps & _ & Hps).
    apply ProviderScoreSchema_Some in Hps as (? & ? & _). by exists (score_provider ps).
  - apply list_elem_of_lookup in Hin as [i Hi].
    destruct (Forall2_lookup_l _ _ _ _ _ Ht Hi) as (pb & _ & Hpb).
    apply ProviderBinarySchema_Some in Hpb as (? & ?). by exists (binary_provider pb).
  - apply list_elem_of_lookup in Hin as [i Hi].
    destruct (Forall2_lookup_l _ _ _ _ _ Hw Hi) as (pb & _ & Hpb).
    apply ProviderBinarySchema_Some in Hpb as (? & ?). by exists (binary_provider pb).
Qed.

Section GenerateObjectFacts.
Variable structuredOutput : LanguageModel -> string -> settled json.
Variable noObjectGenerated : thrown.

Lemma generateObject_Fulfilled {A} m (schema : z.schema A) prompt object :
  generateObject structuredOutput noObjectGenerated m schema prompt = Fulfilled object ->
  exists output, structuredOutput m prompt = Fulfilled output /\ schema output = Some object.
Proof.
  unfold generateObject. destruct (structuredOutput m prompt) as [output|e]; [|done].
  destruct (schema output) as [o|] eqn:Hs; [|done]. intros [= <-]. eauto.
Qed.

Lemma generateObject_refused {A} m (schema : z.schema A) prompt output :
  structuredOutput m prompt = Fulfilled output -> schema output = None ->
  generateObject structuredOutput noObjectGenerated m schema prompt
  = Rejected noObjectGenerated.
Proof. unfold generateObject. by intros -> ->. Qed.
End GenerateObjectFacts.


Lemma ProviderScoreSchema_entry p x r :
  ProviderScoreSchema
    (JObj [("provider", JStr (provider_name p)); ("score", JNum x); ("reason", JStr r)])
  = (s ← z.number (JNum x);
     Some {| score_provider := p; score := s; score_reason := r |}).
Proof. by destruct p. Qed.

(** C5, amended: a judge output that [JudgmentSchema] accepts has, for both
    scoring dimensions ([creativity], [engagement]), one score per entry,
    and the parsed score is the number the entry holds, which is finite;
    the schema asks for a finite number and nothing more: every finite
    number is accepted as a score, whatever its size or sign, and [NaN] and
    the infinities are refused. *)
Theorem scores_are_unchecked_numbers output jd :
  JudgmentSchema output = Some jd ->
  Forall2 (fun entry ps => prop "score" entry = Some (JNum (score ps))
                           /\ is_finite (score ps) = true)
    (raw_entries "scores" "creativity" output) (creativity (scores jd))
  /\ Forall2 (fun entry ps => prop "score" entry = Some (JNum (score ps))
                              /\ is_finite (score ps) = true)
       (raw_entries "scores" "engagement" output) (engagement (scores jd))
  /\ (forall p x r (isFinite : is_finite x = true),
        ProviderScoreSchema
          (JObj [("provider", JStr (provider_name p)); ("score", JNum x); ("reason", JStr r)])
        = Some {| score_provider := p; score := Finite x isFinite; score_reason := r |})
  /\ (forall p x r,
        is_finite x = false ->
        ProviderScoreSchema
          (JObj [("provider", JStr (provider_name p)); ("score", JNum x); ("reason", JStr r)])
        = None).
Proof.
  intros H. apply JudgmentSchema_Some in H as (_ & _ & Hc & He & _).
  split; [|split; [|split]].
  - eapply Forall2_impl; [exact Hc|]. intros entry ps Hps.
    apply ProviderScoreSchema_Some in Hps as (_ & _ & ?). split; [done|].
    apply value_finite.
  - eapply Forall2_impl; [exact He|]. intros entry ps Hps.
    apply ProviderScoreSchema_Some in Hps as (_ & _ & ?). split; [done|].
    apply value_finite.
  - intros p x r isFinite.
    by rewrite ProviderScoreSchema_entry, (number_accepts x isFinite).
  - intros p x r Hx. by rewrite ProviderScoreSchema_entry, (number_refuses x Hx).
Qed.

(** C3, amended: when the provider's call succeeds, [generateStory] returns
    a result whose story is the generated text and whose token count is the
    [totalTokens] of the usage metadata when the response has it, and [0]
    otherwise. *)
Theorem generateStory_tokens generateText clock config prompt tone reply :
  generateText (getModel config) (getStorySystemPrompt tone) prompt = Fulfilled reply ->
  exists result,
    generateStory generateText clock config prompt tone = Fulfilled result
    /\ story result = text reply
    /\ tokens result =
         match usage reply with
         | Some u => match totalTokens u with Some n => n | None => 0 end
         | None => 0
         end.
Proof.
  intros Hreply. unfold generateStory. rewrite Hreply. eexists. split; [done|].
  split; [done|]. simpl. by destruct (usage reply) as [[[n|]]|].
Qed.

Lemma MODELS_one_each config :
  config ∈ MODELS ->
  length (filter (fun c => config_provider c = config_provider config) MODELS) = 1%nat.
Proof.
  intros Hin. apply elem_of_cons in Hin as [->|Hin]; [done|].
  apply list_elem_of_singleton in Hin as ->. done.
Qed.

Section RouteClaims.
Import Route RouteInv RouteFacts RouteStream.

Variable generateText : LanguageModel -> string -> string -> settled GenerateTextResult.
Variable clock : GenerationConfig -> Z * Z.
Variable structuredOutput : LanguageModel -> string -> settled json.
Variable noObjectGenerated : thrown.
Variable sessionId : string.

Abbreviation step := (step generateText clock structuredOutput noObjectGenerated sessionId MODELS).
Abbreviation exec := (exec generateText clock structuredOutput noObjectGenerated sessionId MODELS).
Abbreviation reachable :=
  (reachable generateText clock structuredOutput noObjectGenerated sessionId MODELS).
Abbreviation item_event := (item_event generateText clock).
Abbreviation terminal_event := (terminal_event structuredOutput noObjectGenerated sessionId).
Abbreviation verdict := (verdict structuredOutput noObjectGenerated).
Abbreviation outcome := (outcome generateText clock).

(** C6: in every state the [/stream] handler can reach, every outcome event
    in the stream (a story, or an error naming its provider) is the
    outcome of a configured provider, and no configured provider has more
    than one; once the handler is past [Promise.all], and so at the end
    of the run, every configured provider has exactly one; and the run
    can always be brought to its end. *)
Theorem one_outcome_per_provider st :
  reachable st ->
  (forall m, m ∈ written st -> is_item m = true ->
     exists config, config ∈ MODELS /\ settles (config_provider config) m = true)
  /\ (forall config, config ∈ MODELS ->
        (length (filter (settles (config_provider config)) (written st)) <= 1)%nat)
  /\ (phase st <> AwaitAll ->
      forall config, config ∈ MODELS ->
        length (filter (settles (config_provider config)) (written st)) = 1%nat)
  /\ (exists ls st', exec ls st = Some st' /\ phase st' = Returned).
Proof.
  intros Hreach. destruct (reachable_inv _ _ _ _ _ _ st Hreach) as [arrived HI].
  split; [|split; [|split]].
  - intros m Hm Hitem. rewrite (inv_written HI) in Hm.
    apply elem_of_cons in Hm as [->|Hm]; [done|].
    apply elem_of_app in Hm as [Hm|Hm].
    + apply list_elem_of_fmap in Hm as (config & -> & Hc). exists config. split.
      * eapply elem_of_submseteq; [done|]. by eapply configs_sub.
      * rewrite settles_item. by apply bool_decide_eq_true.
    + exfalso. unfold tail_events in Hm. destruct (phase st); try by inversion Hm.
      * apply list_elem_of_singleton in Hm as ->. done.
      * apply elem_of_cons in Hm as [->|Hm]; [done|].
        apply list_elem_of_singleton in Hm as ->.
        by rewrite is_item_terminal in Hitem.
  - intros config Hconfig. rewrite (count_settled _ _ _ _ _ _ _ _ _ HI).
    rewrite <- (MODELS_one_each config Hconfig).
    apply submseteq_length, filter_submseteq. by eapply configs_sub.
  - intros Hphase config Hconfig. rewrite (count_settled _ _ _ _ _ _ _ _ _ HI).
    rewrite <- (MODELS_one_each config Hconfig).
    apply Permutation_length, filter_Permutation.
    eapply configs_full; [done|]. by eapply phase_full.
  - by apply can_return.
Qed.

(** The providers can settle in any order, and the handler then returns. *)
Lemma any_order order :
  order ≡ₚ seq 0 (length MODELS) ->
  exists st',
    exec ((settle <$> order) ++ [resume; judge_settles]) (init MODELS) = Some st'
    /\ written st' =
         start_event MODELS :: (item_event <$> configs_of MODELS order)
           ++ [judging_event; terminal_event (results st')].
Proof.
  intros Hperm.
  destruct (exec_arrivals generateText clock structuredOutput noObjectGenerated sessionId
              MODELS order) as (st1 & Hexec & HI1 & Hphase1).
  { rewrite Hperm. apply NoDup_seq. }
  { intros i Hi. rewrite Hperm in Hi. apply elem_of_seq in Hi. lia. }
  destruct (exec_finish _ _ _ _ _ _ order st1 HI1) as (st2 & Hfin & Hphase2 & HI2).
  { by rewrite Hperm, length_seq. }
  { done. }
  exists st2. rewrite exec_app, Hexec. split; [done|].
  by destruct (returned_last _ _ _ _ _ _ _ _ HI2 Hphase2) as [-> _].
Qed.

(** C7: in every state the [/stream] handler can reach the stream is the
    start event, then outcome events with at most one per configured
    provider, then a tail fixed by the phase: nothing while the handler
    waits for the providers; the judging event, after exactly one outcome
    per provider, while it waits for the judge; the judging event and
    then a terminal event ([complete] or an error without provider), which
    is the last event, once it has returned, after which no step is
    left.  The providers can settle in every order, and each order gives
    the stream with the outcome events in that order.  The start event
    and the judging event are read as such, and as no other kind of event. *)
Theorem stream_order st :
  reachable st ->
  (exists items tail,
     written st = start_event MODELS :: items ++ tail
     /\ Forall (fun m => is_item m = true) items
     /\ (forall config, config ∈ MODELS ->
           (length (filter (settles (config_provider config)) items) <= 1)%nat)
     /\ match phase st with
        | AwaitAll => tail = []
        | AwaitJudge _ =>
            tail = [judging_event]
            /\ (forall config, config ∈ MODELS ->
                  length (filter (settles (config_provider config)) items) = 1%nat)
        | Returned =>
            (exists t, tail = [judging_event; t] /\ is_terminal t = true
                       /\ last (written st) = Some t)
            /\ (forall config, config ∈ MODELS ->
                  length (filter (settles (config_provider config)) items) = 1%nat)
            /\ (forall l, step l st = None)
        | Threw _ => False
        end)
  /\ (forall order, order ≡ₚ seq 0 (length MODELS) ->
        exists st',
          exec ((settle <$> order) ++ [resume; judge_settles]) (init MODELS) = Some st'
          /\ written st' =
               start_event MODELS :: (item_event <$> configs_of MODELS order)
                 ++ [judging_event; terminal_event (results st')])
  /\ (is_start (start_event MODELS) = true
      /\ is_item (start_event MODELS) = false
      /\ is_judging (start_event MODELS) = false
      /\ is_terminal (start_event MODELS) = false
      /\ is_judging judging_event = true
      /\ is_start judging_event = false
      /\ is_item judging_event = false
      /\ is_terminal judging_event = false).
Proof.
  intros Hreach. split; [|split; [apply any_order|done]].
  destruct (reachable_inv _ _ _ _ _ _ st Hreach) as [arrived HI].
  exists (item_event <$> configs_of MODELS arrived),
         (tail_events structuredOutput noObjectGenerated sessionId st).
  assert (Hcount : forall p,
    length (filter (settles p) (item_event <$> configs_of MODELS arrived))
    = length (filter (fun c => config_provider c = p) (configs_of MODELS arrived))).
  { intros p. by rewrite filter_settles_items, length_fmap. }
  assert (Hfull : length arrived = length MODELS ->
    forall config, config ∈ MODELS ->
      length (filter (settles (config_provider config))
                (item_event <$> configs_of MODELS arrived)) = 1%nat).
  { intros Hlen config Hconfig. rewrite Hcount, <- (MODELS_one_each config Hconfig).
    apply Permutation_length, filter_Permutation. by eapply configs_full. }
  split; [apply HI|]. split; [|split].
  - apply Forall_fmap, Forall_forall. intros config _. apply is_item_item.
  - intros config Hconfig. rewrite Hcount, <- (MODELS_one_each config Hconfig).
    apply submseteq_length, filter_submseteq. by eapply configs_sub.
  - pose proof (inv_phase HI) as Hp. unfold tail_events.
    destruct (phase st) eqn:Hphase; [done| | |done].
    + split; [done|]. apply Hfull. tauto.
    + destruct Hp as [_ Hlen]. split; [|split; [by apply Hfull|]].
      * exists (terminal_event (results st)). split; [done|].
        split; [apply is_terminal_terminal|].
        by eapply returned_last.
      * intros [i| |]; simpl; rewrite ?Hphase; [|done..].
        destruct (promises st !! i) as [[|]|] eqn:Hslot; [done| |done].
        destruct (full_no_pending _ _ _ _ _ _ _ _ _ HI Hlen Hslot).
Qed.

(** C8: in every state the [/stream] handler can reach, the handler has not
    thrown and the combined promise has not rejected; every mapped promise
    that has settled has fulfilled, whatever its provider did; a promise
    still pending can settle, whatever the others did; while any promise
    is pending the handler cannot resume, the judge has not been called
    and no judging event has been written; and past [Promise.all] every
    promise has settled. *)
Theorem failures_are_isolated st :
  reachable st ->
  (forall e, phase st <> Threw e)
  /\ (forall e, all st <> PromiseAll.Resolved (Rejected e))
  /\ (forall i r, promises st !! i = Some (Some r) -> r = Fulfilled ())
  /\ (forall i, promises st !! i = Some None -> is_Some (step (settle i) st))
  /\ ((exists i, promises st !! i = Some None) ->
      step resume st = None /\ phase st = AwaitAll /\ judged st = []
      /\ Forall (fun m => is_judging m = false) (written st))
  /\ (phase st <> AwaitAll ->
      forall i, (i < length MODELS)%nat -> promises st !! i = Some (Some (Fulfilled ()))).
Proof.
  intros Hreach. destruct (reachable_inv _ _ _ _ _ _ st Hreach) as [arrived HI].
  pose proof HI as [Hnd Hb Hlen Hslots Hall Hres Hwr Hph].
  assert (Hpending : forall i, promises st !! i = Some None ->
            (i < length MODELS)%nat /\ i ∉ arrived).
  { intros i Hi.
    assert (Hlt : (i < length MODELS)%nat) by (rewrite <- Hlen; by eapply lookup_lt_Some).
    split; [done|]. intros Hin. rewrite (Hslots i Hlt), decide_True in Hi by done. done. }
  split; [|split; [|split; [|split; [|split]]]].
  - intros e He. by rewrite He in Hph.
  - intros e He. by rewrite He in Hall.
  - intros i r Hi.
    assert (Hlt : (i < length MODELS)%nat) by (rewrite <- Hlen; by eapply lookup_lt_Some).
    rewrite (Hslots i Hlt) in Hi. destruct (decide (i ∈ arrived)); congruence.
  - intros i Hi. destruct (Hpending i Hi) as [Hlt Hfresh].
    destruct (settle_enabled _ _ _ _ _ _ arrived st i HI Hlt Hfresh) as (st' & -> & _).
    eauto.
  - intros [i Hi].
    assert (Hshort : length arrived <> length MODELS).
    { intros Hfull. destruct (full_no_pending _ _ _ _ _ _ _ _ _ HI Hfull Hi). }
    assert (Hphase : phase st = AwaitAll).
    { destruct (phase st); [done|..]; tauto. }
    rewrite Hphase in Hph. split; [|split; [done|split; [done|]]].
    + simpl. rewrite Hphase. destruct (all st) as [|[values|e]]; [done| |done].
      done.
    + rewrite Hwr. unfold tail_events. rewrite Hphase, app_nil_r.
      constructor; [done|]. apply Forall_fmap, Forall_forall. intros config _.
      apply is_judging_item.
  - intros Hphase i Hlt. rewrite (Hslots i Hlt), decide_True; [done|].
    rewrite (arrived_all arrived (length MODELS)); [|done..|by eapply phase_full].
    apply elem_of_seq. lia.
Qed.

(** The error events the handler writes before the judge settles name their
    provider. *)
Lemma errors_before_judge_name_provider arrived :
  Forall (fun m => named "error" m = true ->
                   exists p, payload_provider m = Some (JStr (provider_name p)))
    (start_event MODELS :: (item_event <$> configs_of MODELS arrived) ++ [judging_event]).
Proof.
  constructor; [done|]. apply Forall_app. split; [|by constructor].
  apply Forall_fmap, Forall_forall. intros config _ _.
  exists (config_provider config). unfold RouteInv.item_event.
  destruct (outcome config) as [r|e'] eqn:Hout; [|done].
  by rewrite <- (outcome_provider _ _ _ _ Hout).
Qed.

(** C9: when the judge has been called and that call rejects (the call
    failed, or the schema refused the output), the handler writes the
    [Judge failed] error and returns.  While it waits for the judge, the
    settling of that call is the one step left, and it appends this error
    to the stream and returns; the error's payload has no [provider] key,
    whereas every error event before it names its provider; once the
    handler has returned, the error is the last event and no step is left;
    the stream holds no [complete] event, in whichever of the two states;
    and the handler does run on to its return with this error last. *)
Theorem judge_failure_is_fatal st input e :
  reachable st ->
  judged st = [input] ->
  verdict input = Rejected e ->
  payload_provider (judge_error_event (error_message e)) = None
  /\ is_fatal (judge_error_event (error_message e)) = true
  /\ Forall (fun m => is_complete m = false) (written st)
  /\ (phase st = AwaitJudge input \/ phase st = Returned)
  /\ (phase st = AwaitJudge input ->
        Forall (fun m => named "error" m = true ->
                         exists p, payload_provider m = Some (JStr (provider_name p)))
          (written st)
        /\ (forall l st', step l st = Some st' -> l = judge_settles)
        /\ exists st',
             step judge_settles st = Some st'
             /\ phase st' = Returned
             /\ written st' = written st ++ [judge_error_event (error_message e)])
  /\ (phase st = Returned ->
        (exists earlier,
            written st = earlier ++ [judge_error_event (error_message e)]
            /\ Forall (fun m => named "error" m = true ->
                                exists p, payload_provider m = Some (JStr (provider_name p)))
                 earlier)
        /\ (forall l, step l st = None))
  /\ (exists ls st',
        exec ls st = Some st'
        /\ phase st' = Returned
        /\ last (written st') = Some (judge_error_event (error_message e))).
Proof.
  intros Hreach Hjudged Hv.
  destruct (reachable_inv _ _ _ _ _ _ st Hreach) as [arrived HI].
  assert (Hin : input = results st
                /\ length arrived = length MODELS
                /\ (phase st = AwaitJudge input \/ phase st = Returned)).
  { pose proof (inv_phase HI) as Hp. destruct (phase st) eqn:Hphase.
    - rewrite Hp in Hjudged. discriminate.
    - destruct Hp as (-> & Hj & Hlen). rewrite Hj in Hjudged.
      injection Hjudged as <-. auto.
    - destruct Hp as [Hj Hlen]. rewrite Hj in Hjudged. injection Hjudged as <-. auto.
    - done. }
  destruct Hin as (-> & Hlen & Hphases).
  assert (Hsettle : forall i, step (settle i) st = None).
  { intros i. simpl. destruct (promises st !! i) as [[|]|] eqn:Hslot; [done| |done].
    destruct (full_no_pending _ _ _ _ _ _ _ _ _ HI Hlen Hslot). }
  assert (Hjudge : phase st = AwaitJudge (results st) ->
            step judge_settles st
            = Some {| phase := Returned;
                      promises := promises st;
                      all := all st;
                      results := results st;
                      written := written st ++ [judge_error_event (error_message e)];
                      judged := judged st |}).
  { intros Hphase. simpl. rewrite Hphase. unfold RouteInv.verdict in Hv. by rewrite Hv. }
  split; [done|]. split; [done|]. split; [|split; [done|split; [|split]]].
  - apply Forall_forall. intros m Hm.
    destruct (is_complete m) eqn:Hc; [|done].
    destruct (complete_inv _ _ _ _ _ _ _ _ _ HI Hm Hc) as (_ & judgment & Hv' & _).
    congruence.
  - intros Hphase. split; [|split].
    + rewrite (inv_written HI). unfold tail_events. rewrite Hphase.
      apply errors_before_judge_name_provider.
    + intros [i| |] st' Hstep; [|simpl in Hstep; by rewrite Hphase in Hstep|done].
      by rewrite Hsettle in Hstep.
    + eexists. split; [by apply Hjudge|]. done.
  - intros Hphase. split.
    + destruct (returned_last _ _ _ _ _ _ _ _ HI Hphase) as [Hw _].
      unfold RouteInv.terminal_event in Hw. rewrite Hv in Hw.
      exists (start_event MODELS :: (item_event <$> configs_of MODELS arrived)
                ++ [judging_event]).
      split; [|apply errors_before_judge_name_provider].
      rewrite Hw. simpl. by rewrite <- app_assoc.
    + intros [i| |]; [apply Hsettle|simpl; by rewrite Hphase..].
  - destruct Hphases as [Hphase|Hphase].
    + exists [judge_settles]. eexists. split; [|split].
      * rewrite exec_cons, (Hjudge Hphase). reflexivity.
      * done.
      * simpl. apply last_snoc.
    + exists []. exists st. split; [done|]. split; [done|].
      destruct (returned_last _ _ _ _ _ _ _ _ HI Hphase) as [_ ->].
      unfold RouteInv.terminal_event. by rewrite Hv.
Qed.

(** What the stream holds when the schema refuses the judge's output. *)
Lemma refused_output st output :
  reachable st ->
  structuredOutput JUDGE_MODEL (getJudgePrompt (results st) FIXED_TONE FIXED_PROMPT)
    = Fulfilled output ->
  JudgmentSchema output = None ->
  verdict (results st) = Rejected noObjectGenerated
  /\ Forall (fun m => is_complete m = false) (written st)
  /\ (phase st = Returned ->
      last (written st) = Some (judge_error_event (error_message noObjectGenerated)))
  /\ (forall input, phase st = AwaitJudge input ->
        exists st',
          step judge_settles st = Some st'
          /\ phase st' = Returned
          /\ written st'
             = written st ++ [judge_error_event (error_message noObjectGenerated)]).
Proof.
  intros Hreach Hout Hrefuse.
  destruct (reachable_inv _ _ _ _ _ _ st Hreach) as [arrived HI].
  assert (Hv : verdict (results st) = Rejected noObjectGenerated)
    by (by apply generateObject_refused with output).
  split; [done|]. split; [|split].
  - apply Forall_forall. intros m Hm. destruct (is_complete m) eqn:Hc; [|done].
    destruct (complete_inv _ _ _ _ _ _ _ _ _ HI Hm Hc) as (_ & judgment & Hv' & _).
    congruence.
  - intros Hphase. destruct (returned_last _ _ _ _ _ _ _ _ HI Hphase) as [_ ->].
    unfold RouteInv.terminal_event. by rewrite Hv.
  - intros input Hphase. pose proof (inv_phase HI) as Hp. rewrite Hphase in Hp.
    destruct Hp as (-> & _). simpl. rewrite Hphase.
    unfold RouteInv.verdict in Hv. rewrite Hv. eauto.
Qed.

(** C2, amended: every [complete] event the handler writes carries a
    judgment parsed from the judge's output, whose winner is the id the
    output named and is one of the fixed [PROVIDERS]; a judge output whose
    winner is none of [PROVIDERS] is refused by the schema, the judge call
    rejects, no [complete] event is written and the run ends with the
    [Judge failed] error: the settling of the judge call writes it and
    returns, and it is the last event once the handler has returned. *)
Theorem winner_is_a_known_provider st :
  reachable st ->
  (forall m, m ∈ written st -> is_complete m = true ->
     exists output judgment,
       structuredOutput JUDGE_MODEL (getJudgePrompt (results st) FIXED_TONE FIXED_PROMPT)
         = Fulfilled output
       /\ JudgmentSchema output = Some judgment
       /\ m = complete_event sessionId judgment
       /\ winner judgment ∈ PROVIDERS
       /\ prop "winner" output = Some (JStr (provider_name (winner judgment)))
       /\ announced_winner m = Some (JStr (provider_name (winner judgment))))
  /\ (forall output,
        structuredOutput JUDGE_MODEL (getJudgePrompt (results st) FIXED_TONE FIXED_PROMPT)
          = Fulfilled output ->
        (forall p, p ∈ PROVIDERS -> prop "winner" output <> Some (JStr (provider_name p))) ->
        verdict (results st) = Rejected noObjectGenerated
        /\ Forall (fun m => is_complete m = false) (written st)
        /\ (phase st = Returned ->
            last (written st)
            = Some (judge_error_event (error_message noObjectGenerated)))
        /\ (forall input, phase st = AwaitJudge input ->
              exists st',
                step judge_settles st = Some st'
                /\ phase st' = Returned
                /\ written st'
                   = written st ++ [judge_error_event (error_message noObjectGenerated)])).
Proof.
  intros Hreach. split.
  - intros m Hm Hc. destruct (reachable_inv _ _ _ _ _ _ st Hreach) as [arrived HI].
    destruct (complete_inv _ _ _ _ _ _ _ _ _ HI Hm Hc) as (_ & judgment & Hv & -> & _).
    apply generateObject_Fulfilled in Hv as (output & Hout & Hschema).
    exists output, judgment.
    destruct (JudgmentSchema_Some _ _ Hschema) as (Hw & Hin & _). done.
  - intros output Hout Hunknown. apply (refused_output st output Hreach Hout).
    destruct (JudgmentSchema output) as [judgment|] eqn:Hschema; [|done].
    destruct (JudgmentSchema_Some _ _ Hschema) as (Hw & Hin & _).
    destruct (Hunknown _ Hin Hw).
Qed.

(** C4, amended: every [complete] event the handler writes comes from a
    judge output in which every entry of the score and check arrays names
    one of the fixed [PROVIDERS]; a judge output with an entry that names
    no such provider is refused by the schema, the judge call rejects, no
    [complete] event is written and the run ends with the [Judge failed]
    error: the settling of the judge call writes it and returns, and it is
    the last event once the handler has returned. *)
Theorem judge_entries_name_known_providers st :
  reachable st ->
  (forall m, m ∈ written st -> is_complete m = true ->
     exists output,
       structuredOutput JUDGE_MODEL (getJudgePrompt (results st) FIXED_TONE FIXED_PROMPT)
         = Fulfilled output
       /\ Forall names_known_provider (all_raw_entries output))
  /\ (forall output,
        structuredOutput JUDGE_MODEL (getJudgePrompt (results st) FIXED_TONE FIXED_PROMPT)
          = Fulfilled output ->
        Exists (fun entry => ~ names_known_provider entry) (all_raw_entries output) ->
        verdict (results st) = Rejected noObjectGenerated
        /\ Forall (fun m => is_complete m = false) (written st)
        /\ (phase st = Returned ->
            last (written st)
            = Some (judge_error_event (error_message noObjectGenerated)))
        /\ (forall input, phase st = AwaitJudge input ->
              exists st',
                step judge_settles st = Some st'
                /\ phase st' = Returned
                /\ written st'
                   = written st ++ [judge_error_event (error_message noObjectGenerated)])).
Proof.
  intros Hreach. split.
  - intros m Hm Hc. destruct (reachable_inv _ _ _ _ _ _ st Hreach) as [arrived HI].
    destruct (complete_inv _ _ _ _ _ _ _ _ _ HI Hm Hc) as (_ & judgment & Hv & -> & _).
    apply generateObject_Fulfilled in Hv as (output & Hout & Hschema).
    exists output. split; [done|]. by eapply schema_entries_known.
  - intros output Hout Hunknown. apply (refused_output st output Hreach Hout).
    destruct (JudgmentSchema output) as [judgment|] eqn:Hschema; [|done].
    apply schema_entries_known in Hschema.
    apply Exists_exists in Hunknown as (entry & Hin & Hnot).
    rewrite Forall_forall in Hschema. destruct (Hnot (Hschema entry Hin)).
Qed.

Lemma reachable_exec st ls st' :
  reachable st -> exec ls st = Some st' -> reachable st'.
Proof.
  intros [ls0 Hls0] Hls. exists (ls0 ++ ls). by rewrite exec_app, Hls0.
Qed.

Lemma total_failure_inv st :
  (forall config, config ∈ MODELS -> exists e, outcome config = Rejected e) ->
  reachable st ->
  results st = []
  /\ Forall (fun m => named "story" m = false) (written st)
  /\ (phase st = Returned ->
      judged st = [[]]
      /\ exists items,
           written st = start_event MODELS :: items ++ [judging_event; terminal_event []]
           /\ items ≡ₚ item_event <$> MODELS
           /\ Forall (fun m => named "error" m = true /\ is_item m = true) items).
Proof.
  intros Hfail Hreach. destruct (reachable_inv _ _ _ _ _ _ st Hreach) as [arrived HI].
  assert (Hsub : forall config, config ∈ configs_of MODELS arrived -> config ∈ MODELS).
  { intros config Hin. eapply elem_of_submseteq; [done|]. by eapply configs_sub. }
  assert (Hitem : forall config, config ∈ configs_of MODELS arrived ->
            named "error" (item_event config) = true
            /\ named "story" (item_event config) = false
            /\ is_item (item_event config) = true).
  { intros config Hin. destruct (Hfail config (Hsub config Hin)) as [e He].
    unfold RouteInv.item_event. rewrite He. by destruct config as [[] ?]. }
  assert (Hres : results st = []).
  { rewrite (inv_results HI).
    induction (configs_of MODELS arrived) as [|config configs IH]; [done|]. simpl.
    destruct (Hfail config) as [e ->]; [apply Hsub; by left|]. simpl.
    apply IH.
    - intros c Hc. apply Hsub. by right.
    - intros c Hc. apply Hitem. by right. }
  split; [done|]. split.
  - rewrite (inv_written HI). constructor; [done|].
    apply Forall_app. split.
    + apply Forall_fmap, Forall_forall. intros config Hin. by apply Hitem.
    + unfold tail_events. destruct (phase st); repeat constructor.
      unfold RouteInv.terminal_event. by destruct (RouteInv.verdict _ _ _).
  - intros Hphase. pose proof (inv_phase HI) as Hp.
    rewrite Hphase, Hres in Hp. destruct Hp as [Hj Hfull]. split; [done|].
    exists (item_event <$> configs_of MODELS arrived).
    destruct (returned_last _ _ _ _ _ _ _ _ HI Hphase) as [Hw _].
    rewrite Hres in Hw. split; [done|]. split.
    + apply fmap_Permutation. by eapply configs_full.
    + apply Forall_fmap, Forall_forall. intros config Hin.
      destruct (Hitem config Hin) as (? & _ & ?). done.
Qed.

(** C1, amended: when the generation call of every configured provider
    fails, the handler records no result and writes no story; when it has
    returned, the judge has been called exactly once, with the empty list
    of results, and the stream is the start event, the error events of the
    providers in some order, the judging event, and the terminal event of
    that judge call; and the handler does run on to that return. *)
Theorem total_failure_still_judged st :
  (forall config, config ∈ MODELS -> exists e, outcome config = Rejected e) ->
  reachable st ->
  results st = []
  /\ Forall (fun m => named "story" m = false) (written st)
  /\ (phase st = Returned ->
      judged st = [[]]
      /\ exists items,
           written st = start_event MODELS :: items ++ [judging_event; terminal_event []]
           /\ items ≡ₚ item_event <$> MODELS
           /\ Forall (fun m => named "error" m = true /\ is_item m = true) items)
  /\ (exists ls st',
        exec ls st = Some st'
        /\ phase st' = Returned
        /\ judged st' = [[]]
        /\ last (written st') = Some (terminal_event [])).
Proof.
  intros Hfail Hreach.
  destruct (total_failure_inv st Hfail Hreach) as (Hres & Hstories & Hreturned).
  split; [done|]. split; [done|]. split; [done|].
  destruct (can_return _ _ _ _ _ _ st Hreach) as (ls & st' & Hls & Hphase).
  exists ls, st'. split; [done|]. split; [done|].
  destruct (total_failure_inv st' Hfail (reachable_exec _ _ _ Hreach Hls))
    as (_ & _ & Hreturned').
  destruct (Hreturned' Hphase) as (Hjudged & items & Hw & _). split; [done|].
  rewrite Hw. apply last_two.
Qed.
End RouteClaims.

(** * The agent handler keeps its invariant *)
Module AgentFacts.
Import Agent AgentInv.

Section Facts.
Variable generateText : LanguageModel -> string -> string -> settled GenerateTextResult.
Variable clock : GenerationConfig -> Z * Z.
Variable structuredOutput : LanguageModel -> string -> settled json.
Variable noObjectGenerated : thrown.
Variable sessionId : string.
Variable models : list GenerationConfig.
Variable input : ArenaInput.

Abbreviation step :=
  (step generateText clock structuredOutput noObjectGenerated sessionId models input).
Abbreviation exec :=
  (exec generateText clock structuredOutput noObjectGenerated sessionId models input).
Abbreviation reachable :=
  (reachable generateText clock structuredOutput noObjectGenerated sessionId models input).
Abbreviation Inv :=
  (Inv generateText clock structuredOutput noObjectGenerated sessionId models input).
Abbreviation outcome := (outcome generateText clock input).

Lemma agent_init_inv : Inv (init models).
Proof.
  unfold init. split; simpl.
  - apply length_replicate.
  - intros i r Hi. apply lookup_replicate in Hi as [? _]. done.
  - apply (create_consistent (length models)).
  - done.
Qed.

Lemma agent_step_inv l st st' : Inv st -> step l st = Some st' -> Inv st'.
Proof.
  intros [Hlen Hslots Hall Hph] Hstep. destruct l as [i| |]; simpl in Hstep.
  - destruct (promises st !! i) as [[|]|] eqn:Hslot; try discriminate.
    destruct (models !! i) as [config|] eqn:Hconfig; try discriminate.
    injection Hstep as <-. split; simpl.
    + by rewrite length_insert.
    + intros j r Hj. destruct (decide (i = j)) as [<-|Hne].
      * rewrite list_lookup_insert_eq in Hj by (by eapply lookup_lt_Some).
        injection Hj as <-. eauto.
      * rewrite list_lookup_insert_ne in Hj by done. eauto.
    + by apply (settle_consistent (promises st) (all st) i).
    + destruct (all st) as [|r] eqn:Hcomb; [|done].
      destruct (phase st) as [| |[out|e]]; [done|..].
      * by destruct Hph.
      * by destruct Hph.
      * destruct Hph as [[? _]|(? & ? & _)]; done.
  - destruct (phase st) eqn:Hphase; try discriminate.
    destruct (all st) as [|[results|e]] eqn:Hcomb; try discriminate;
      injection Hstep as <-; split; simpl; try done.
    + by rewrite Hph.
    + by left.
  - destruct (phase st) as [|results|] eqn:Hphase; try discriminate.
    destruct Hph as [Hcomb Hj].
    injection Hstep as <-. split; simpl; try done.
    destruct (judgeStories _ _ _ _ _) as [judgment|e] eqn:Hjudge; simpl.
    + done.
    + right. by exists results.
Qed.

Lemma agent_exec_inv ls st st' : Inv st -> exec ls st = Some st' -> Inv st'.
Proof.
  revert st. induction ls as [|l ls IH]; intros st HI Hexec; simpl in Hexec.
  - by injection Hexec as <-.
  - destruct (step l st) as [st1|] eqn:Hstep; [|done]. simpl in Hexec.
    eapply IH; [|done]. by eapply agent_step_inv.
Qed.

Lemma agent_reachable_inv st : reachable st -> Inv st.
Proof. intros [ls Hls]. eapply agent_exec_inv; [apply agent_init_inv|done]. Qed.

(** With a provider that fails, the combined promise never fulfils. *)
Lemma never_fulfilled st config e values :
  Inv st -> config ∈ models -> outcome config = Rejected e ->
  all st <> PromiseAll.Resolved (Fulfilled values).
Proof.
  intros [Hlen Hslots Hall Hph] Hin Hfail Hcomb. rewrite Hcomb in Hall. simpl in Hall.
  apply list_elem_of_lookup in Hin as [k Hk].
  destruct (collect_Some_lookup _ _ k Hall) as [a Ha].
  { rewrite Hlen. by eapply lookup_lt_Some. }
  destruct (Hslots k _ Ha) as (config' & Hk' & Hout). congruence.
Qed.
End Facts.
End AgentFacts.

Section AgentClaims.
Import Agent AgentInv AgentFacts.

Variable generateText : LanguageModel -> string -> string -> settled GenerateTextResult.
Variable clock : GenerationConfig -> Z * Z.
Variable structuredOutput : LanguageModel -> string -> settled json.
Variable noObjectGenerated : thrown.
Variable sessionId : string.
Variable input : ArenaInput.

Abbreviation step :=
  (step generateText clock structuredOutput noObjectGenerated sessionId MODELS input).
Abbreviation exec :=
  (exec generateText clock structuredOutput noObjectGenerated sessionId MODELS input).
Abbreviation reachable :=
  (reachable generateText clock structuredOutput noObjectGenerated sessionId MODELS input).
Abbreviation outcome := (outcome generateText clock input).

(** C10: in the agent handler, when the generation call of some configured
    provider fails, then in every reachable state the judge has not been
    called, the handler is not waiting for a judge, and it has not
    fulfilled with an output; when it has settled it has rejected with the
    error of a provider that failed; and it can always be brought to
    reject. *)
Theorem agent_fails_as_a_whole st config e :
  config ∈ MODELS ->
  outcome config = Rejected e ->
  reachable st ->
  judged st = []
  /\ (forall results, phase st <> AwaitJudge results)
  /\ (forall out, phase st <> Settled (Fulfilled out))
  /\ (forall e', phase st = Settled (Rejected e') ->
        exists config', config' ∈ MODELS /\ outcome config' = Rejected e')
  /\ (exists ls st' e', exec ls st = Some st' /\ phase st' = Settled (Rejected e')).
Proof.
  intros Hin Hfail Hreach. pose proof (agent_reachable_inv _ _ _ _ _ _ _ st Hreach) as HI.
  pose proof (fun values => never_fulfilled _ _ _ _ _ _ _ st config e values HI Hin Hfail)
    as Hnever.
  pose proof HI as [Hlen Hslots Hall Hph].
  assert (Hrej : forall e', all st = PromiseAll.Resolved (Rejected e') ->
            exists config', config' ∈ MODELS /\ outcome config' = Rejected e').
  { intros e' Hcomb. rewrite Hcomb in Hall. destruct Hall as [i Hi].
    destruct (Hslots i _ Hi) as (config' & Hk & Hout). exists config'.
    split; [|done]. apply list_elem_of_lookup. eauto. }
  split; [|split; [|split; [|split]]].
  - destruct (phase st) as [|results|[out|e']]; [done|..].
    + destruct Hph as [Hcomb _]. by destruct (Hnever results).
    + destruct Hph as [Hcomb _]. by destruct (Hnever (output_results out)).
    + destruct Hph as [[_ ?]|(results & Hcomb & _)]; [done|]. by destruct (Hnever results).
  - intros results Hphase. rewrite Hphase in Hph. destruct Hph as [Hcomb _].
    by destruct (Hnever results).
  - intros out Hphase. rewrite Hphase in Hph. destruct Hph as [Hcomb _].
    by destruct (Hnever (output_results out)).
  - intros e' Hphase. rewrite Hphase in Hph.
    destruct Hph as [[Hcomb _]|(results & Hcomb & _)]; [by apply Hrej|].
    by destruct (Hnever results).
  - destruct (phase st) as [|results|[out|e']] eqn:Hphase.
    + destruct (all st) as [|[values|e']] eqn:Hcomb.
      * apply list_elem_of_lookup in Hin as [k Hk].
        assert (Hslot : promises st !! k = Some None).
        { destruct (lookup_lt_is_Some_2 (promises st) k) as [[r|] Hr]; [|..|done].
          - rewrite Hlen. by eapply lookup_lt_Some.
          - destruct (Hslots k r Hr) as (config' & Hk' & ->).
            destruct Hall as [_ Hno]. destruct (Hno k e). congruence. }
        exists [settle k; resume]. simpl.
        rewrite Hslot, Hk. simpl. fold (outcome config). rewrite Hfail, Hcomb, Hphase.
        simpl. eauto.
      * by destruct (Hnever values).
      * exists [resume]. simpl. rewrite Hphase, Hcomb. simpl. eauto.
    + destruct Hph as [Hcomb _]. by destruct (Hnever results).
    + destruct Hph as [Hcomb _]. by destruct (Hnever (output_results out)).
    + exists [], st, e'. done.
Qed.
End AgentClaims.

(** * The theorems at concrete runs *)

Lemma reachable_final generateText judge ls :
  is_Some (Samples.run generateText judge ls) ->
  Route.reachable generateText Samples.clock judge Samples.mismatch Samples.session MODELS
    (Samples.final generateText judge ls).
Proof.
  intros [st Hst]. exists ls. unfold Samples.final.
  fold (Samples.run generateText judge ls). by rewrite Hst.
Qed.

(** C1 as stated fails when both providers fail: the judge is still called,
    with no stories, and a [judging] and a [complete] event are sent; no
    fatal error is. *)
Lemma total_failure_reaches_the_judge :
  Route.phase Samples.total_failure = Route.Returned
  /\ Route.results Samples.total_failure = []
  /\ Route.judged Samples.total_failure = [[]]
  /\ sse_event <$> Route.written Samples.total_failure
     = ["start"; "error"; "error"; "judging"; "complete"]
  /\ Forall (fun m => is_fatal m = false) (Route.written Samples.total_failure).
Proof. vm_compute. repeat split; repeat constructor. Qed.

Lemma total_failure_still_judged_witness :
  Route.reachable Samples.all_fail Samples.clock
    (Samples.judge_says (Samples.full_verdict "openai" [] 1)) Samples.mismatch
    Samples.session MODELS Samples.total_failure
  /\ Route.results Samples.total_failure = []
  /\ Route.judged Samples.total_failure = [[]].
Proof.
  assert (Hreach : Route.reachable Samples.all_fail Samples.clock
            (Samples.judge_says (Samples.full_verdict "openai" [] 1)) Samples.mismatch
            Samples.session MODELS Samples.total_failure).
  { apply reachable_final. vm_compute. eauto. }
  split; [exact Hreach|].
  destruct (total_failure_still_judged Samples.all_fail Samples.clock
              (Samples.judge_says (Samples.full_verdict "openai" [] 1)) Samples.mismatch
              Samples.session Samples.total_failure) as (Hres & _ & Hret & _).
  - intros config _. exists (ErrorObj "network error"). reflexivity.
  - exact Hreach.
  - split; [exact Hres|]. apply Hret. reflexivity.
Defined.

(** C2 as stated fails when OpenAI fails, Anthropic answers and the judge
    names OpenAI: the verdict passes the schema and is sent. *)
Lemma absent_provider_can_win :
  Route.phase Samples.absent_winner = Route.Returned
  /\ provider <$> Route.results Samples.absent_winner = [anthropic]
  /\ (last (Route.written Samples.absent_winner) ≫= announced_winner)
     = Some (JStr (provider_name openai))
  /\ openai ∉ provider <$> Route.results Samples.absent_winner.
Proof.
  vm_compute. repeat split. intros Hin.
  apply list_elem_of_singleton in Hin. discriminate.
Qed.

Lemma winner_is_a_known_provider_witness :
  Forall (fun m => is_complete m = true ->
            exists p, p ∈ PROVIDERS /\ announced_winner m = Some (JStr (provider_name p)))
    (Route.written Samples.absent_winner).
Proof.
  assert (Hreach : Route.reachable Samples.openai_fails Samples.clock
            (Samples.judge_says (Samples.full_verdict "openai" ["anthropic"] 0.5))
            Samples.mismatch Samples.session MODELS Samples.absent_winner).
  { apply reachable_final. vm_compute. eauto. }
  destruct (winner_is_a_known_provider _ _ _ _ _ _ Hreach) as [Hwin _].
  apply Forall_forall. intros m Hm Hc.
  destruct (Hwin m Hm Hc) as (output & judgment & _ & _ & _ & Hin & _ & Hannounced).
  eauto.
Defined.

(** C3 as stated fails for a response without usage: eight characters of
    story, and a token count of 0 rather than 2. *)
Lemma missing_usage_counts_zero :
  exists result,
    generateStory Samples.no_usage Samples.clock
      {| config_provider := openai; config_model := "gpt-5-nano" |}
      Route.FIXED_PROMPT Route.FIXED_TONE = Fulfilled result
    /\ Z.of_nat (String.length (story result)) / 4 = 2
    /\ tokens result = 0.
Proof. eexists. split; [reflexivity|]. split; reflexivity. Qed.

Lemma generateStory_tokens_witness :
  exists result,
    generateStory Samples.no_usage Samples.clock
      {| config_provider := openai; config_model := "gpt-5-nano" |}
      Route.FIXED_PROMPT Route.FIXED_TONE = Fulfilled result
    /\ tokens result = 0.
Proof.
  destruct (generateStory_tokens Samples.no_usage Samples.clock
              {| config_provider := openai; config_model := "gpt-5-nano" |}
              Route.FIXED_PROMPT Route.FIXED_TONE
              {| text := "abcdefgh"; usage := None |})
    as (result & Hrun & _ & Htokens).
  - reflexivity.
  - exists result. split; [exact Hrun|exact Htokens].
Defined.

(** C4 as stated fails when both providers answer and the judge scores and
    checks neither: the verdict passes the schema and is sent. *)
Lemma unscored_providers_pass :
  Route.phase Samples.nobody_scored = Route.Returned
  /\ provider <$> Route.results Samples.nobody_scored = [openai; anthropic]
  /\ all_raw_entries Samples.empty_verdict = []
  /\ is_Some (JudgmentSchema Samples.empty_verdict)
  /\ (is_complete <$> last (Route.written Samples.nobody_scored)) = Some true.
Proof. vm_compute. repeat split. eauto. Qed.

Lemma judge_entries_name_known_providers_witness :
  Forall (fun m => is_complete m = true ->
            exists output,
              Samples.judge_says Samples.fair_verdict JUDGE_MODEL
                (getJudgePrompt (Route.results Samples.all_well)
                   Route.FIXED_TONE Route.FIXED_PROMPT)
              = Fulfilled output
              /\ Forall names_known_provider (all_raw_entries output))
    (Route.written Samples.all_well).
Proof.
  assert (Hreach : Route.reachable Samples.both_succeed Samples.clock
            (Samples.judge_says Samples.fair_verdict)
            Samples.mismatch Samples.session MODELS Samples.all_well).
  { apply reachable_final. vm_compute. eauto. }
  destruct (judge_entries_name_known_providers _ _ _ _ _ _ Hreach) as [Hknown _].
  apply Forall_forall. intros m Hm Hc.
  destruct (Hknown m Hm Hc) as (output & Hout & Hall). eauto.
Defined.

(** C5 as stated fails for a verdict whose scores are 5: it passes the
    schema with the scores as they are. *)
Lemma off_scale_scores_pass :
  exists judgment,
    JudgmentSchema Samples.off_scale = Some judgment
    /\ value <$> (score <$> creativity (scores judgment)) = [5; 5]%float
    /\ value <$> (score <$> engagement (scores judgment)) = [5; 5]%float
    /\ (5 <=? 1)%float = false.
Proof. eexists. repeat split; reflexivity. Qed.

(** The numeral [1e400] is too large for a binary64 number and reads as an
    infinity. *)
Lemma scores_are_unchecked_numbers_witness :
  exists judgment,
    JudgmentSchema Samples.off_scale = Some judgment
    /\ Forall2 (fun entry ps => prop "score" entry = Some (JNum (score ps))
                                /\ is_finite (score ps) = true)
         (raw_entries "scores" "creativity" Samples.off_scale)
         (creativity (scores judgment))
    /\ (value <$> (score <$> ProviderScoreSchema (Samples.score_entry "openai" 5)))
       = Some 5%float
    /\ ProviderScoreSchema (Samples.score_entry "openai" 1e400) = None.
Proof.
  destruct (JudgmentSchema Samples.off_scale) as [judgment|] eqn:Hschema;
    [|vm_compute in Hschema; discriminate].
  exists judgment. split; [reflexivity|].
  destruct (scores_are_unchecked_numbers _ _ Hschema) as (Hscores & _ & Hany & Hnone).
  split; [exact Hscores|]. split.
  - change (Samples.score_entry "openai" 5)
      with (JObj [("provider", JStr (provider_name openai)); ("score", JNum 5);
                  ("reason", JStr "vivid")]).
    rewrite (Hany openai 5%float "vivid" eq_refl). reflexivity.
  - apply (Hnone openai 1e400%float "vivid"). reflexivity.
Defined.

Lemma one_outcome_per_provider_witness :
  Forall (fun config =>
            length (filter (settles (config_provider config))
                      (Route.written Samples.absent_winner)) = 1%nat)
    MODELS.
Proof.
  apply Forall_forall.
  assert (Hreach : Route.reachable Samples.openai_fails Samples.clock
            (Samples.judge_says (Samples.full_verdict "openai" ["anthropic"] 0.5))
            Samples.mismatch Samples.session MODELS Samples.absent_winner).
  { apply reachable_final. vm_compute. eauto. }
  destruct (one_outcome_per_provider _ _ _ _ _ _ Hreach) as (_ & _ & Hone & _).
  apply Hone. discriminate.
Defined.

Lemma stream_order_witness :
  exists items tail,
    Route.written Samples.absent_winner = Route.start_event MODELS :: items ++ tail
    /\ Forall (fun m => is_item m = true) items.
Proof.
  assert (Hreach : Route.reachable Samples.openai_fails Samples.clock
            (Samples.judge_says (Samples.full_verdict "openai" ["anthropic"] 0.5))
            Samples.mismatch Samples.session MODELS Samples.absent_winner).
  { apply reachable_final. vm_compute. eauto. }
  destruct (stream_order _ _ _ _ _ _ Hreach) as [(items & tail & Hw & Hitems & _) _].
  exists items, tail. split; [exact Hw|exact Hitems].
Defined.

Lemma failures_are_isolated_witness :
  Route.promises Samples.absent_winner !! 0%nat = Some (Some (Fulfilled ()))
  /\ Route.promises Samples.absent_winner !! 1%nat = Some (Some (Fulfilled ())).
Proof.
  assert (Hreach : Route.reachable Samples.openai_fails Samples.clock
            (Samples.judge_says (Samples.full_verdict "openai" ["anthropic"] 0.5))
            Samples.mismatch Samples.session MODELS Samples.absent_winner).
  { apply reachable_final. vm_compute. eauto. }
  destruct (failures_are_isolated _ _ _ _ _ _ Hreach) as (_ & _ & _ & _ & _ & Hall).
  split; apply Hall; try discriminate; simpl; lia.
Defined.

Lemma judge_failure_is_fatal_witness :
  exists st',
    Route.step Samples.both_succeed Samples.clock Samples.judge_down Samples.mismatch
      Samples.session MODELS judge_settles Samples.judge_pending = Some st'
    /\ Route.phase st' = Route.Returned
    /\ Route.written st'
       = Route.written Samples.judge_pending
           ++ [Route.judge_error_event "rate limited"].
Proof.
  assert (Hreach : Route.reachable Samples.both_succeed Samples.clock
            Samples.judge_down Samples.mismatch Samples.session MODELS
            Samples.judge_pending).
  { apply reachable_final. vm_compute. eauto. }
  destruct (judge_failure_is_fatal _ _ _ _ _ Samples.judge_pending
              (Route.results Samples.judge_pending)
              (ErrorObj "rate limited") Hreach) as (_ & _ & _ & _ & Hstep & _).
  - reflexivity.
  - reflexivity.
  - destruct Hstep as (_ & _ & Hemit); [reflexivity|]. exact Hemit.
Defined.

Lemma agent_fails_as_a_whole_witness :
  Agent.judged Samples.agent_partial = []
  /\ exists e, Agent.phase Samples.agent_partial = Agent.Settled (Rejected e).
Proof.
  destruct (agent_fails_as_a_whole Samples.openai_fails Samples.clock
              (Samples.judge_says Samples.fair_verdict) Samples.mismatch Samples.session
              Samples.arena_input Samples.agent_partial
              {| config_provider := openai; config_model := "gpt-5-nano" |}
              (ErrorObj "network error")) as (Hjudged & _).
  - by left.
  - reflexivity.
  - exists [settle 1%nat; settle 0%nat; resume]. reflexivity.
  - split; [exact Hjudged|]. eexists. reflexivity.
Defined.

(** * Further properties *)

Lemma submseteq_NoDup {A} (l k : list A) : l ⊆+ k -> NoDup k -> NoDup l.
Proof.
  intros Hsub Hnd. apply submseteq_Permutation in Hsub as [rest Hperm].
  rewrite Hperm in Hnd. by apply NoDup_app in Hnd as [? _].
Qed.

Section RouteResults.
Import Route RouteInv RouteFacts RouteStream.

Variable generateText : LanguageModel -> string -> string -> settled GenerateTextResult.
Variable clock : GenerationConfig -> Z * Z.
Variable structuredOutput : LanguageModel -> string -> settled json.
Variable noObjectGenerated : thrown.
Variable sessionId : string.

Abbreviation reachable :=
  (reachable generateText clock structuredOutput noObjectGenerated sessionId MODELS).
Abbreviation item_event := (item_event generateText clock).
Abbreviation terminal_event := (terminal_event structuredOutput noObjectGenerated sessionId).
Abbreviation outcome := (outcome generateText clock).

Lemma item_event_cases config :
  (exists r, outcome config = Fulfilled r /\ item_event config = story_event r)
  \/ (exists e, outcome config = Rejected e
                /\ item_event config = provider_error_event config (error_message e)).
Proof.
  unfold RouteInv.item_event. destruct (outcome config) as [r|e]; eauto.
Qed.

Lemma filter_story_items (configs : list GenerationConfig) :
  filter (named "story") (item_event <$> configs)
  = story_event <$> omap (fun c => fulfilled_value (outcome c)) configs.
Proof.
  induction configs as [|c configs IH]; [done|].
  rewrite fmap_cons, filter_cons. simpl.
  destruct (item_event_cases c) as [(r & -> & ->)|(e & -> & ->)]; simpl;
    by rewrite IH.
Qed.

Lemma filter_story_tail st :
  filter (named "story") (tail_events structuredOutput noObjectGenerated sessionId st) = [].
Proof.
  unfold tail_events. destruct (phase st); try done.
  rewrite filter_cons, decide_False by (by intros []).
  rewrite filter_cons, decide_False; [done|].
  unfold RouteInv.terminal_event. destruct (RouteInv.verdict _ _ _); by intros [].
Qed.

Lemma NoDup_MODELS_providers : NoDup (config_provider <$> MODELS).
Proof.
  apply NoDup_cons. split; [|apply NoDup_singleton].
  intros Hin. apply list_elem_of_singleton in Hin. discriminate.
Qed.

Lemma results_providers (configs : list GenerationConfig) :
  provider <$> omap (fun c => fulfilled_value (outcome c)) configs
  ⊆+ config_provider <$> configs.
Proof.
  induction configs as [|c configs IH]; [done|]. simpl.
  destruct (outcome c) as [r|e] eqn:Hout; simpl.
  - rewrite (outcome_provider _ _ _ _ Hout). by constructor.
  - by constructor.
Qed.

Lemma results_NoDup arrived st :
  Inv generateText clock structuredOutput noObjectGenerated sessionId MODELS arrived st ->
  NoDup (provider <$> results st).
Proof.
  intros HI. rewrite (inv_results HI). eapply submseteq_NoDup; [apply results_providers|].
  eapply submseteq_NoDup; [|apply NoDup_MODELS_providers].
  apply fmap_submseteq. by eapply configs_sub.
Qed.

Lemma results_from_outcomes arrived st r :
  Inv generateText clock structuredOutput noObjectGenerated sessionId MODELS arrived st ->
  r ∈ results st -> exists config, config ∈ MODELS /\ outcome config = Fulfilled r.
Proof.
  intros HI Hr. rewrite (inv_results HI) in Hr.
  apply list_elem_of_omap in Hr as (config & Hin & Hout). exists config. split.
  - eapply elem_of_submseteq; [done|]. by eapply configs_sub.
  - destruct (outcome config) as [r'|e]; simpl in Hout; [|done].
    by injection Hout as ->.
Qed.

Lemma results_hold_every_success arrived st config r :
  Inv generateText clock structuredOutput noObjectGenerated sessionId MODELS arrived st ->
  phase st <> AwaitAll -> config ∈ MODELS -> outcome config = Fulfilled r ->
  r ∈ results st.
Proof.
  intros HI Hphase Hin Hout. rewrite (inv_results HI).
  apply list_elem_of_omap. exists config. split; [|by rewrite Hout].
  rewrite (configs_full _ _ _ _ _ _ _ _ HI); [done|]. by eapply phase_full.
Qed.

(** X1: in every state the [/stream] handler can reach, the story events of the
    stream are, in order, the story events of the results recorded so far;
    every recorded result is the fulfilled outcome of a configured
    provider, no two results have the same provider, and past
    [Promise.all] every fulfilled outcome is recorded. *)
Theorem results_are_the_stories st :
  reachable st ->
  filter (named "story") (written st) = story_event <$> results st
  /\ (forall r, r ∈ results st ->
        exists config, config ∈ MODELS /\ outcome config = Fulfilled r)
  /\ NoDup (provider <$> results st)
  /\ (phase st <> AwaitAll ->
      forall config r, config ∈ MODELS -> outcome config = Fulfilled r -> r ∈ results st).
Proof.
  intros Hreach. destruct (reachable_inv _ _ _ _ _ _ st Hreach) as [arrived HI].
  pose proof (configs_sub _ _ _ _ _ _ _ _ HI) as Hsub.
  split; [|split; [|split]].
  - rewrite (inv_written HI), (inv_results HI).
    rewrite filter_cons, decide_False by (by intros []).
    by rewrite filter_app, filter_story_tail, app_nil_r, filter_story_items.
  - intros r Hr. by eapply results_from_outcomes.
  - by eapply results_NoDup.
  - intros Hphase config r Hin Hout. by eapply results_hold_every_success.
Qed.

Lemma MODELS_provider_inj config config' :
  config ∈ MODELS -> config' ∈ MODELS ->
  config_provider config = config_provider config' -> config = config'.
Proof.
  intros Hin Hin'.
  apply elem_of_cons in Hin as [->|Hin]; [|apply list_elem_of_singleton in Hin as ->];
    (apply elem_of_cons in Hin' as [->|Hin']; [|apply list_elem_of_singleton in Hin' as ->]);
    done.
Qed.

(** X2: the [/stream] handler calls the judge at most once, never before
    [Promise.all] has fulfilled, and with the results as they stand then,
    which do not change afterwards: the input holds the result of every
    provider that succeeded and no result of a provider that failed. *)
Theorem judge_sees_the_survivors st :
  reachable st ->
  (phase st = AwaitAll -> judged st = [])
  /\ (phase st <> AwaitAll ->
      judged st = [results st]
      /\ (forall input, phase st = AwaitJudge input -> input = results st)
      /\ forall config, config ∈ MODELS ->
           match outcome config with
           | Fulfilled r => r ∈ results st
           | Rejected _ => config_provider config ∉ provider <$> results st
           end).
Proof.
  intros Hreach. destruct (reachable_inv _ _ _ _ _ _ st Hreach) as [arrived HI].
  pose proof (inv_phase HI) as Hp. split.
  - intros Hphase. by rewrite Hphase in Hp.
  - intros Hphase. split; [|split].
    + destruct (phase st); [done|..]; tauto.
    + intros input Hin. rewrite Hin in Hp. tauto.
    + intros config Hconfig. destruct (outcome config) as [r|e] eqn:Hout.
      * by eapply results_hold_every_success.
      * intros Hin. apply list_elem_of_fmap in Hin as (r & Hpr & Hr).
        destruct (results_from_outcomes _ _ _ HI Hr) as (config' & Hconfig' & Hout').
        rewrite (outcome_provider _ _ _ _ Hout') in Hpr.
        rewrite (MODELS_provider_inj _ _ Hconfig Hconfig' Hpr) in Hout. congruence.
Qed.

(** X3: past [Promise.all], for every configured provider the stream holds
    the event of its call: when the call of [generateText] fulfilled, the
    story event with the text, the elapsed time and the token count of the
    reply; when it rejected, the error event with the message of the error
    thrown, or [Unknown error] when what was thrown is not an [Error]. *)
Theorem outcome_events_carry_the_result st config :
  reachable st -> phase st <> AwaitAll -> config ∈ MODELS ->
  match generateText (getModel config) (getStorySystemPrompt FIXED_TONE) FIXED_PROMPT with
  | Fulfilled reply =>
      story_event
        {| provider := config_provider config;
           model := config_model config;
           story := text reply;
           generationMs := snd (clock config) - fst (clock config);
           tokens := nullish (usage reply ≫= totalTokens) 0 |} ∈ written st
  | Rejected e => provider_error_event config (error_message e) ∈ written st
  end.
Proof.
  intros Hreach Hphase Hconfig.
  destruct (reachable_inv _ _ _ _ _ _ st Hreach) as [arrived HI].
  assert (Hin : item_event config ∈ written st).
  { rewrite (inv_written HI). apply elem_of_cons. right. apply elem_of_app. left.
    apply list_elem_of_fmap_2.
    rewrite (configs_full _ _ _ _ _ _ _ _ HI); [done|]. by eapply phase_full. }
  unfold RouteInv.item_event, RouteInv.outcome, generateStory in Hin.
  by destruct (generateText _ _ _).
Qed.
End RouteResults.

Section AgentSuccess.
Import Agent AgentInv AgentFacts.

Variable generateText : LanguageModel -> string -> string -> settled GenerateTextResult.
Variable clock : GenerationConfig -> Z * Z.
Variable structuredOutput : LanguageModel -> string -> settled json.
Variable noObjectGenerated : thrown.
Variable sessionId : string.
Variable input : ArenaInput.

Abbreviation step :=
  (step generateText clock structuredOutput noObjectGenerated sessionId MODELS input).
Abbreviation exec :=
  (exec generateText clock structuredOutput noObjectGenerated sessionId MODELS input).
Abbreviation reachable :=
  (reachable generateText clock structuredOutput noObjectGenerated sessionId MODELS input).
Abbreviation Inv :=
  (Inv generateText clock structuredOutput noObjectGenerated sessionId MODELS input).
Abbreviation outcome := (outcome generateText clock input).
Abbreviation judgeStories := (judgeStories structuredOutput noObjectGenerated).

Lemma agent_exec_app ls1 ls2 st :
  exec (ls1 ++ ls2) st = exec ls1 st ≫= exec ls2.
Proof.
  revert st. induction ls1 as [|l ls1 IH]; intros st; simpl; [done|].
  destruct (step l st) as [st'|]; simpl; [apply IH|done].
Qed.

(** The values of a fulfilled [Promise.all] are the results of the configs,
    in the order of the configs. *)
Lemma fulfilled_in_config_order st values :
  Inv st -> all st = PromiseAll.Resolved (Fulfilled values) ->
  Forall2 (fun config r => outcome config = Fulfilled r) MODELS values.
Proof.
  intros [Hlen Hslots Hall Hph] Hcomb. rewrite Hcomb in Hall. simpl in Hall.
  apply mapM_Some in Hall. apply Forall2_same_length_lookup. split.
  - rewrite <- Hlen. by eapply Forall2_length.
  - intros i config r Hconfig Hr.
    destruct (Forall2_lookup_r _ _ _ _ _ Hall Hr) as (slot & Hslot & Hval).
    destruct slot as [[r'|e]|]; simpl in Hval; try done. injection Hval as ->.
    destruct (Hslots i _ Hslot) as (config' & Hconfig' & ->). congruence.
Qed.

Lemma pending_decreases {A} (slots : list (option A)) i a :
  slots !! i = Some None ->
  (length (filter (fun slot => slot = None) (<[i:=Some a]> slots))
   < length (filter (fun slot => slot = None) slots))%nat.
Proof.
  revert i. induction slots as [|slot slots IH]; intros i Hi; [done|].
  destruct i as [|i]; simpl in *.
  - injection Hi as ->. rewrite !filter_cons.
    destruct (decide (Some a = None)); [done|].
    destruct (decide (@None A = None)); [simpl; lia|done].
  - rewrite !filter_cons. specialize (IH i Hi).
    destruct (decide (slot = None)); simpl; lia.
Qed.

(** While the handler waits, the promises still pending can settle one
    after the other until the combined promise has settled. *)
Lemma agent_can_resolve n st :
  Inv st -> phase st = AwaitAll ->
  (length (filter (fun slot => slot = None) (promises st)) <= n)%nat ->
  exists ls st', exec ls st = Some st' /\ Inv st' /\ phase st' = AwaitAll
                 /\ all st' <> PromiseAll.Pending.
Proof.
  revert st. induction n as [|n IH]; intros st HI Hphase Hcount.
  - exists [], st. split; [done|]. split; [done|]. split; [done|].
    intros Hcomb. pose proof (agent_all _ _ _ _ _ _ _ _ HI) as Hall.
    rewrite Hcomb in Hall. destruct Hall as [[i Hi] _].
    apply list_elem_of_lookup_2 in Hi.
    assert (Hin : None ∈ filter (fun slot => slot = None) (promises st))
      by (by apply list_elem_of_filter).
    destruct (filter _ (promises st)); [by apply elem_of_nil in Hin|simpl in Hcount; lia].
  - destruct (all st) as [|r] eqn:Hcomb.
    + pose proof (agent_all _ _ _ _ _ _ _ _ HI) as Hall.
      rewrite Hcomb in Hall. destruct Hall as [[i Hi] _].
      assert (Hlt : (i < length MODELS)%nat).
      { rewrite <- (agent_length _ _ _ _ _ _ _ _ HI). by eapply lookup_lt_Some. }
      destruct (lookup_lt_is_Some_2 MODELS i Hlt) as [config Hconfig].
      assert (exists st1, step (settle i) st = Some st1
                          /\ phase st1 = AwaitAll
                          /\ promises st1 = <[i:=Some (outcome config)]> (promises st))
        as (st1 & Hstep & Hphase1 & Hslots1).
      { simpl. rewrite Hi, Hconfig. eauto. }
      destruct (IH st1) as (ls & st' & Hexec & HI' & Hphase' & Hcomb').
      { by eapply agent_step_inv. }
      { done. }
      { rewrite Hslots1. pose proof (pending_decreases (promises st) i (outcome config) Hi).
        lia. }
      exists (settle i :: ls), st'. simpl in *. rewrite Hi, Hconfig in *.
      injection Hstep as <-. done.
    + exists [], st. rewrite Hcomb. done.
Qed.

(** X4: in the agent handler, when every provider succeeds, the judge is given
    the results in the order of [MODELS], whatever the order in which the
    providers settled; the output, when the judge succeeds, carries the
    session id, those results in that order and the judge's judgment; when
    the judge fails the handler rejects with the judge's error; and the
    handler can always be brought to settle. *)
Theorem agent_returns_in_config_order st :
  (forall config, config ∈ MODELS -> exists r, outcome config = Fulfilled r) ->
  reachable st ->
  (forall results, phase st = AwaitJudge results ->
     Forall2 (fun config r => outcome config = Fulfilled r) MODELS results
     /\ judged st = [results])
  /\ (forall out, phase st = Settled (Fulfilled out) ->
        Forall2 (fun config r => outcome config = Fulfilled r) MODELS (output_results out)
        /\ id out = sessionId
        /\ judgeStories (output_results out) (tone input) (prompt input)
           = Fulfilled (judgment out)
        /\ judged st = [output_results out])
  /\ (forall e, phase st = Settled (Rejected e) ->
        exists results,
          Forall2 (fun config r => outcome config = Fulfilled r) MODELS results
          /\ judgeStories results (tone input) (prompt input) = Rejected e
          /\ judged st = [results])
  /\ (exists ls st' o, exec ls st = Some st' /\ phase st' = Settled o).
Proof.
  intros Hok Hreach. pose proof (agent_reachable_inv _ _ _ _ _ _ _ st Hreach) as HI.
  pose proof HI as [Hlen Hslots Hall Hph].
  split; [|split; [|split]].
  - intros results Hphase. rewrite Hphase in Hph. destruct Hph as [Hcomb Hj].
    split; [by eapply fulfilled_in_config_order|done].
  - intros out Hphase. rewrite Hphase in Hph. destruct Hph as (Hcomb & Hj & Hid & Hv).
    split; [by eapply fulfilled_in_config_order|done].
  - intros e Hphase. rewrite Hphase in Hph.
    destruct Hph as [[Hcomb _]|(results & Hcomb & Hj & Hv)].
    + rewrite Hcomb in Hall. destruct Hall as [i Hi].
      destruct (Hslots i _ Hi) as (config & Hconfig & Hout).
      destruct (Hok config) as [r Hr]; [by eapply list_elem_of_lookup_2|]. congruence.
    + exists results. split; [by eapply fulfilled_in_config_order|done].
  - destruct (phase st) as [|results|o] eqn:Hphase.
    + destruct (agent_can_resolve (length (promises st)) st HI Hphase)
        as (ls & st1 & Hexec & HI1 & Hphase1 & Hcomb1); [apply length_filter|].
      assert (exists ls2 st2 o, exec ls2 st1 = Some st2 /\ phase st2 = Settled o)
        as (ls2 & st2 & o & Hfin & Hphase2).
      { destruct (all st1) as [|[values|e]] eqn:Hcomb; [done|..].
        - exists [resume; judge_settles]. simpl. rewrite Hphase1, Hcomb. simpl. eauto.
        - exists [resume]. simpl. rewrite Hphase1, Hcomb. simpl. eauto. }
      exists (ls ++ ls2), st2, o. split; [|done].
      by rewrite agent_exec_app, Hexec.
    + exists [judge_settles]. simpl. rewrite Hphase. simpl. eauto.
    + exists [], st, o. done.
Qed.
End AgentSuccess.

(** * The prompts *)

Lemma append_cons x (a b : string) : String x a +:+ b = String x (a +:+ b).
Proof. reflexivity. Qed.

Lemma append_assoc (a b c : string) : (a +:+ b) +:+ c = a +:+ b +:+ c.
Proof. induction a as [|x a IH]; [done|]. by rewrite !append_cons, IH. Qed.

Lemma append_empty_r (a : string) : a +:+ EmptyString = a.
Proof. induction a as [|x a IH]; [done|]. by rewrite append_cons, IH. Qed.

Lemma contains_here s after : contains (s +:+ after) s.
Proof. by exists EmptyString, after. Qed.

Lemma contains_app_l a s t : contains s t -> contains (a +:+ s) t.
Proof.
  intros (before & after & ->). exists (a +:+ before), after. by rewrite append_assoc.
Qed.

Lemma contains_app_r s b t : contains s t -> contains (s +:+ b) t.
Proof.
  intros (before & after & ->). exists before, (after +:+ b).
  by rewrite !append_assoc.
Qed.

Lemma join_contains sep parts part : part ∈ parts -> contains (join sep parts) part.
Proof.
  induction parts as [|p parts IH]; intros Hin; [by apply elem_of_nil in Hin|].
  apply elem_of_cons in Hin as [->|Hin].
  - destruct parts; simpl.
    + exists EmptyString, EmptyString. simpl. by rewrite append_empty_r.
    + apply contains_here.
  - destruct parts as [|q parts]; [by apply elem_of_nil in Hin|].
    change (contains (p +:+ sep +:+ join sep (q :: parts)) part).
    by apply contains_app_l, contains_app_l, IH.
Qed.

(** X5: the judge prompt contains the block of every result it is given, the
    block contains the story, and the prompt quotes the original prompt. *)
Theorem judge_prompt_shows_every_story results tone prompt r :
  r ∈ results ->
  contains (getJudgePrompt results tone prompt) (story_block r)
  /\ contains (story_block r) (story r)
  /\ contains (getJudgePrompt results tone prompt) (dq +:+ prompt +:+ dq).
Proof.
  intros Hin. split; [|split].
  - unfold getJudgePrompt. cbv zeta.
    do 19 apply contains_app_l. apply contains_app_r.
    apply join_contains, list_elem_of_fmap. eauto.
  - unfold story_block. do 4 apply contains_app_l. apply contains_here.
  - unfold getJudgePrompt. cbv zeta. do 4 apply contains_app_l.
    eexists EmptyString, _. change (EmptyString +:+ ?x) with x.
    rewrite !append_assoc. reflexivity.
Qed.

(** X6: the judge prompt depends on the results only through their providers
    and stories: model ids, generation times and token counts do not reach
    the judge. *)
Theorem judge_prompt_is_blind results results' tone prompt :
  provider <$> results = provider <$> results' ->
  story <$> results = story <$> results' ->
  getJudgePrompt results tone prompt = getJudgePrompt results' tone prompt.
Proof.
  intros Hp Hs. unfold getJudgePrompt. cbv zeta.
  assert (Hblocks : story_block <$> results = story_block <$> results').
  { revert results' Hp Hs. induction results as [|r results IH];
      intros [|r' results'] Hp Hs; try done.
    simpl in *. injection Hp as Hp Hps. injection Hs as Hs Hss.
    unfold story_block at 1 3. rewrite Hp, Hs. f_equal. by apply IH. }
  by rewrite Hblocks.
Qed.

(** * Round trips through the schemas *)












(** X9: an output that [JudgmentSchema] accepts is an object with a string
    [winner], a string [reasoning], an object [scores] with arrays
    [creativity] and [engagement], and an object [checks] with arrays
    [toneMatch] and [wordCount]; any other output is refused. *)
Theorem judgment_needs_its_keys output jd :
  JudgmentSchema output = Some jd ->
  exists fields,
    output = JObj fields
    /\ (exists w, get "winner" fields = Some (JStr w))
    /\ (exists r, get "reasoning" fields = Some (JStr r))
    /\ (exists sc c e, get "scores" fields = Some (JObj sc)
                       /\ get "creativity" sc = Some (JArr c)
                       /\ get "engagement" sc = Some (JArr e))
    /\ (exists ch t w, get "checks" fields = Some (JObj ch)
                       /\ get "toneMatch" ch = Some (JArr t)
                       /\ get "wordCount" ch = Some (JArr w)).
Proof.
  intros H. destruct output as [| | | | |fields]; try done. exists fields.
  split; [done|]. unfold JudgmentSchema in H. simpl in H.
  apply bind_Some in H as (w & Hw & H). apply bind_Some in H as (r & Hr & H).
  apply bind_Some in H as (s & Hs & H). apply bind_Some in H as (c & Hc & H).
  apply bind_Some in Hw as ([] & Hw & Hw'); try done.
  apply bind_Some in Hr as ([] & Hr & Hr'); try done.
  apply bind_Some in Hs as ([| | | | |sc] & Hs & Hs'); try done.
  apply bind_Some in Hc as ([| | | | |ch] & Hc & Hc'); try done.
  unfold ScoresSchema in Hs'. simpl in Hs'.
  apply bind_Some in Hs' as (cr & Hcr & Hs'). apply bind_Some in Hs' as (en & Hen & _).
  apply bind_Some in Hcr as ([] & Hcr & Hcr'); try discriminate.
  apply bind_Some in Hen as ([] & Hen & Hen'); try discriminate.
  unfold ChecksSchema in Hc'. simpl in Hc'.
  apply bind_Some in Hc' as (tm & Htm & Hc'). apply bind_Some in Hc' as (wc & Hwc & _).
  apply bind_Some in Htm as ([] & Htm & Htm'); try discriminate.
  apply bind_Some in Hwc as ([] & Hwc & Hwc'); try discriminate.
  split; [by eexists|]. split; [by eexists|].
  split; do 3 eexists; repeat split; eassumption.
Qed.

(** * The client reads the stream *)
Module ClientFacts.
Import Client.

Lemma feed_app ms1 ms2 c : feed (ms1 ++ ms2) c = feed ms1 c ≫= feed ms2.
Proof.
  revert c. induction ms1 as [|m ms1 IH]; intros c; simpl; [done|].
  destruct (deliver m c) as [c'|]; simpl; [apply IH|done].
Qed.

Lemma feed_snoc ms m c : feed (ms ++ [m]) c = feed ms c ≫= deliver m.
Proof.
  rewrite feed_app. destruct (feed ms c) as [c'|]; [|done]. simpl.
  by destruct (deliver m c').
Qed.

(** A closed source dispatches nothing. *)
Lemma feed_closed ms c : readyState c = CLOSED -> feed ms c = Some c.
Proof.
  intros Hclosed. induction ms as [|m ms IH]; [done|].
  simpl. unfold deliver. rewrite Hclosed. simpl. exact IH.
Qed.

Lemma map_set_fresh {V} k (v : V) m :
  Forall (fun entry => same_value_zero entry.1 k = false) m ->
  map_set k v m = m ++ [(k, v)].
Proof.
  induction 1 as [|[k' v'] m Hk _ IH]; [done|]. simpl in *.
  by rewrite Hk, IH.
Qed.

Lemma deliver_story r c :
  readyState c = OPEN ->
  deliver (Route.story_event r) c
  = Some {| state :=
              {| status := status (state c);
                 prompt := prompt (state c);
                 tone := tone (state c);
                 providers := providers (state c);
                 stories := map_set (Some (JStr (provider_name (provider r))))
                              (sse_data (Route.story_event r)) (stories (state c));
                 errors := errors (state c);
                 judgment := judgment (state c);
                 globalError := globalError (state c) |};
            readyState := OPEN |}.
Proof. destruct c as [prev ready]. simpl. by intros ->. Qed.

Lemma feed_stories rs c :
  readyState c = OPEN -> stories (state c) = [] -> NoDup (provider <$> rs) ->
  feed (Route.story_event <$> rs) c
  = Some {| state :=
              {| status := status (state c);
                 prompt := prompt (state c);
                 tone := tone (state c);
                 providers := providers (state c);
                 stories := story_entry <$> rs;
                 errors := errors (state c);
                 judgment := judgment (state c);
                 globalError := globalError (state c) |};
            readyState := OPEN |}.
Proof.
  intros Hopen Hempty. induction rs as [|r rs IH] using rev_ind; intros Hnd.
  - destruct c as [[] ?]. simpl in *. by subst.
  - rewrite fmap_app in Hnd. apply NoDup_app in Hnd as (Hnd & Hfresh & _).
    rewrite fmap_app. change (Route.story_event <$> [r]) with [Route.story_event r].
    rewrite feed_snoc, (IH Hnd). cbn [mbind option_bind].
    rewrite deliver_story by done. cbn [state stories].
    rewrite map_set_fresh, fmap_app; [done|].
    apply Forall_fmap, Forall_forall. intros r' Hr'. simpl.
    apply bool_decide_eq_false. intros Heq. apply provider_name_inj in Heq.
    apply (Hfresh (provider r')); [by apply list_elem_of_fmap_2|].
    rewrite Heq. by left.
Qed.

Lemma deliver_start :
  deliver (Route.start_event MODELS) (connected startArena)
  = Some {| state :=
              {| status := generating;
                 prompt := Some (JStr Route.FIXED_PROMPT);
                 tone := Some (JStr (tone_name Route.FIXED_TONE));
                 providers := Some (JArr (Route.competitor <$> MODELS));
                 stories := [];
                 errors := [];
                 judgment := null;
                 globalError := null |};
            readyState := OPEN |}.
Proof. reflexivity. Qed.
End ClientFacts.

Section ClientClaims.
Import Route RouteInv RouteFacts RouteStream Client ClientFacts.

Variable generateText : LanguageModel -> string -> string -> settled GenerateTextResult.
Variable clock : GenerationConfig -> Z * Z.
Variable structuredOutput : LanguageModel -> string -> settled json.
Variable noObjectGenerated : thrown.
Variable sessionId : string.

Abbreviation reachable :=
  (reachable generateText clock structuredOutput noObjectGenerated sessionId MODELS).
Abbreviation Inv :=
  (Inv generateText clock structuredOutput noObjectGenerated sessionId MODELS).
Abbreviation item_event := (item_event generateText clock).
Abbreviation terminal_event := (terminal_event structuredOutput noObjectGenerated sessionId).
Abbreviation verdict := (verdict structuredOutput noObjectGenerated).
Abbreviation outcome := (outcome generateText clock).

(** A stream in which no provider has failed. *)
Lemma clean_items (configs : list GenerationConfig) :
  Forall (fun m => is_item m = true -> named "story" m = true) (item_event <$> configs) ->
  item_event <$> configs
  = story_event <$> omap (fun c => fulfilled_value (outcome c)) configs.
Proof.
  induction configs as [|c configs IH]; [done|]. rewrite fmap_cons.
  intros Hclean. apply Forall_cons in Hclean as [Hc Hclean]. simpl.
  destruct (item_event_cases generateText clock c) as [(r & -> & ->)|(e & -> & Hev)]; simpl.
  - by rewrite IH.
  - rewrite Hev in Hc. by specialize (Hc eq_refl).
Qed.

Lemma watch_clean arrived st :
  Inv arrived st ->
  Forall (fun m => is_item m = true -> named "story" m = true) (written st) ->
  watch (written st)
  = feed (tail_events structuredOutput noObjectGenerated sessionId st)
      {| state :=
           {| status := generating;
              prompt := Some (JStr FIXED_PROMPT);
              tone := Some (JStr (tone_name FIXED_TONE));
              providers := Some (JArr (competitor <$> MODELS));
              stories := story_entry <$> results st;
              errors := [];
              judgment := null;
              globalError := null |};
         readyState := OPEN |}.
Proof.
  intros HI Hclean. rewrite (inv_written HI) in *.
  apply Forall_cons in Hclean as [_ Hclean]. apply Forall_app in Hclean as [Hclean _].
  rewrite (clean_items _ Hclean), <- (inv_results HI).
  unfold watch. cbn [feed]. rewrite deliver_start. cbn [mbind option_bind].
  rewrite feed_app, feed_stories; [done..|]. by eapply results_NoDup.
Qed.

(** X10: while no provider has failed and the handler has not returned, the
    client that has read the stream so far is still connected, shows
    [generating] until the judging event and [judging] after it, lists the
    providers of the start event, holds one story per recorded result, in
    arrival order, and no error and no judgment. *)
Theorem client_follows_a_clean_run st :
  reachable st ->
  Forall (fun m => is_item m = true -> named "story" m = true) (written st) ->
  phase st <> Returned ->
  exists c,
    watch (written st) = Some c
    /\ readyState c = OPEN
    /\ status (state c) = match phase st with AwaitAll => generating | _ => judging end
    /\ providers (state c) = Some (JArr (competitor <$> MODELS))
    /\ stories (state c) = story_entry <$> results st
    /\ errors (state c) = []
    /\ judgment (state c) = null
    /\ globalError (state c) = null.
Proof.
  intros Hreach Hclean Hphase. destruct (reachable_inv _ _ _ _ _ _ st Hreach) as [arrived HI].
  rewrite (watch_clean _ _ HI Hclean). unfold tail_events.
  pose proof (inv_phase HI) as Hp.
  destruct (phase st); [| |done..]; eexists; (split; [reflexivity|]); done.
Qed.


Lemma first_failure (configs : list GenerationConfig) :
  Exists (fun m => is_item m = true /\ named "error" m = true) (item_event <$> configs) ->
  exists good bad rest e,
    configs = good ++ bad :: rest
    /\ item_event <$> good
       = story_event <$> omap (fun c => fulfilled_value (outcome c)) good
    /\ outcome bad = Rejected e
    /\ item_event bad = provider_error_event bad (error_message e).
Proof.
  induction configs as [|c configs IH]; intros Hex; [by apply Exists_nil in Hex|].
  destruct (item_event_cases generateText clock c) as [(r & Hout & Hev)|(e & Hout & Hev)].
  - rewrite fmap_cons, Hev in Hex. apply Exists_cons in Hex as [[_ Hbad]|Hex]; [done|].
    destruct (IH Hex) as (good & bad & rest & e & -> & Hgood & Hbad & Hevb).
    exists (c :: good), bad, rest, e. split; [done|]. split; [|done].
    rewrite fmap_cons, Hev, Hgood. simpl. by rewrite Hout.
  - by exists [], c, configs, e.
Qed.

Lemma deliver_provider_error config message c :
  readyState c = OPEN -> status (state c) = generating -> errors (state c) = [] ->
  exists c',
    deliver (provider_error_event config message) c = Some c'
    /\ readyState c' = CLOSED
    /\ status (state c') = error
    /\ globalError (state c') = Some (JStr "Connection lost")
    /\ judgment (state c') = judgment (state c)
    /\ stories (state c') = stories (state c)
    /\ errors (state c')
       = [(Some (JStr (provider_name (config_provider config))), Some (JStr message))].
Proof.
  destruct c as [[] ready], config as [[] ?]; simpl; intros -> -> ->;
    eexists; (split; [reflexivity|]); done.
Qed.

(** X12: when the stream holds the error event of a provider, the client that
    reads it ends closed, with status [error], the message [Connection
    lost], no judgment, and the error of the first provider that failed as
    its only provider error: the event reaches the [onerror] handler as
    well, which closes the source, so nothing the server sends afterwards
    is read. *)
Theorem client_drops_the_run_on_a_provider_error st :
  reachable st ->
  Exists (fun m => is_item m = true /\ named "error" m = true) (written st) ->
  exists c config e,
    watch (written st) = Some c
    /\ config ∈ MODELS
    /\ outcome config = Rejected e
    /\ readyState c = CLOSED
    /\ status (state c) = error
    /\ globalError (state c) = Some (JStr "Connection lost")
    /\ judgment (state c) = null
    /\ errors (state c)
       = [(Some (JStr (provider_name (config_provider config))),
           Some (JStr (error_message e)))].
Proof.
  intros Hreach Hex. destruct (reachable_inv _ _ _ _ _ _ st Hreach) as [arrived HI].
  pose proof (configs_sub _ _ _ _ _ _ _ _ HI) as Hsub.
  rewrite (inv_written HI) in *.
  apply Exists_cons in Hex as [[? _]|Hex]; [done|].
  apply Exists_app in Hex as [Hex|Hex]; cycle 1.
  { exfalso. unfold tail_events in Hex. destruct (phase st).
    - by apply Exists_nil in Hex.
    - apply Exists_cons in Hex as [[? _]|Hex]; [done|by apply Exists_nil in Hex].
    - apply Exists_cons in Hex as [[? _]|Hex]; [done|].
      apply Exists_cons in Hex as [[Hitem _]|Hex]; [|by apply Exists_nil in Hex].
      by rewrite is_item_terminal in Hitem.
    - by apply Exists_nil in Hex. }
  destruct (first_failure _ Hex) as (good & bad & rest & e & Hsplit & Hgood & Hbad & Hev).
  rewrite Hsplit in *. rewrite fmap_app, fmap_cons, Hgood, Hev.
  unfold watch. cbn [feed]. rewrite deliver_start. cbn [mbind option_bind].
  rewrite <- app_assoc, feed_app, feed_stories; [|done..|].
  2:{ eapply submseteq_NoDup; [apply results_providers|].
      eapply submseteq_NoDup; [|apply NoDup_MODELS_providers].
      apply fmap_submseteq. etrans; [|exact Hsub]. apply submseteq_inserts_r. done. }
  cbn [mbind option_bind]. rewrite <- app_comm_cons. cbn [feed].
  edestruct (deliver_provider_error bad (error_message e)) as (c' & -> & Hclosed & Hrest);
    [| | |cbn [mbind option_bind]; rewrite (feed_closed _ _ Hclosed)]; [done..|].
  exists c', bad, e. split; [done|]. split.
  { eapply elem_of_submseteq; [|exact Hsub]. apply elem_of_app. right. by left. }
  split; [done|]. split; [done|]. destruct Hrest as (? & ? & Hj & _ & ?).
  split; [done|]. split; [done|]. split; [by rewrite Hj|done].
Qed.
End ClientClaims.

(** X13: in the progress stepper the judge step is active or complete only
    when the generate step is complete, and is never in error; the generate
    step is in error exactly when the status is [error] and no story has
    arrived; a step that is neither is pending. *)
Theorem judge_step_waits_for_generate_step status storiesComplete stepId :
  (Client.getStepStatus status storiesComplete "judge" <> Client.step_pending ->
   Client.getStepStatus status storiesComplete "generate" = Client.step_complete)
  /\ (Client.getStepStatus status storiesComplete "judge" <> Client.step_error)
  /\ (Client.getStepStatus status storiesComplete "generate" = Client.step_error <->
      status = Client.error /\ storiesComplete = 0%nat)
  /\ (stepId <> "generate" -> stepId <> "judge" ->
      Client.getStepStatus status storiesComplete stepId = Client.step_pending).
Proof.
  split; [|split; [|split]].
  - by destruct status.
  - by destruct status.
  - destruct status, storiesComplete; split; try done; by intros [? ?].
  - intros Hg Hj. unfold Client.getStepStatus.
    rewrite !(bool_decide_eq_false_2 _ Hg), ?(bool_decide_eq_false_2 _ Hj).
    by destruct status.
Qed.

(** X14: after a connection failure the client reads nothing more; a fatal
    failure, for which the browser has closed the source, leaves the state
    as it was; a failure the browser would retry closes the source and
    shows [error] with [Connection lost], keeping stories and judgment,
    unless the status is already [complete], which it leaves as it is. *)
Theorem connection_failures c fatal ms :
  Client.feed ms (Client.connection_lost fatal c) = Some (Client.connection_lost fatal c)
  /\ Client.state (Client.connection_lost true c) = Client.state c
  /\ (Client.readyState c <> Client.CLOSED ->
      Client.status (Client.state c) <> Client.complete ->
      Client.status (Client.state (Client.connection_lost false c)) = Client.error
      /\ Client.globalError (Client.state (Client.connection_lost false c))
         = Some (JStr "Connection lost")
      /\ Client.stories (Client.state (Client.connection_lost false c))
         = Client.stories (Client.state c)
      /\ Client.judgment (Client.state (Client.connection_lost false c))
         = Client.judgment (Client.state c))
  /\ (Client.status (Client.state c) = Client.complete ->
      Client.state (Client.connection_lost false c) = Client.state c).
Proof.
  split; [|split; [|split]].
  - apply ClientFacts.feed_closed. by destruct c as [prev []], fatal.
  - by destruct c as [prev []].
  - destruct c as [prev []]; intros Hopen Hstatus; try done; simpl in *;
      by destruct (Client.status prev).
  - destruct c as [prev []]; simpl; intros Hstatus; by rewrite ?Hstatus.
Qed.

(** * The product search agent *)
Section VectorFacts.
Import Vector.

Variable Store : Type.
Variable vector_exists : Store -> string -> settled bool.
Variable vector_upsert : Store -> string -> UpsertParams -> Store * settled unit.
Variable vector_search : Store -> string -> SearchParams -> settled (list SearchResult).
Variable sampleProducts : list ProductMetadata.
Variable structuredOutput : string -> LanguageModel -> string -> settled json.
Variable noObjectGenerated : thrown.
Variable show : float -> string.

Abbreviation seed := (seed Store vector_upsert).
Abbreviation upserted := (upserted Store vector_upsert).
Abbreviation seeding := (seeding Store vector_exists vector_upsert sampleProducts).
Abbreviation handler :=
  (handler Store vector_exists vector_upsert vector_search sampleProducts structuredOutput
     noObjectGenerated show).
Abbreviation recommendation_prompt := (recommendation_prompt show).

Lemma upserted_snoc done product s :
  upserted (done ++ [product]) s
  = (vector_upsert (upserted done s) namespace (seed_params product)).1.
Proof. unfold Vector.upserted. by rewrite fold_left_app. Qed.

(** The loop stops at the first upsert that rejects. *)
Lemma seed_spec products w :
  asked (seed products w).1 = asked w
  /\ match (seed products w).2 with
     | Fulfilled _ => store (seed products w).1 = upserted products (store w)
     | Rejected e =>
         exists done product rest,
           products = done ++ product :: rest
           /\ store (seed products w).1 = upserted (done ++ [product]) (store w)
           /\ (vector_upsert (upserted done (store w)) namespace (seed_params product)).2
              = Rejected e
     end.
Proof.
  revert w. induction products as [|product products IH]; intros w; [done|].
  simpl. unfold bind, upsert.
  destruct (vector_upsert (store w) namespace (seed_params product)) as [s [[]|e]] eqn:Hup.
  - destruct (IH {| store := s; asked := asked w |}) as [Hasked Hrest].
    split; [done|]. simpl in Hrest.
    assert (Hs : s = (vector_upsert (store w) namespace (seed_params product)).1)
      by (by rewrite Hup).
    destruct (seed products _).2 as [[]|e'].
    + by rewrite Hrest, Hs.
    + destruct Hrest as (done & p & rest & -> & Hstore & Hrej).
      exists (product :: done), p, rest. simpl. rewrite <- Hs. done.
  - split; [done|]. exists [], product, products. simpl. by rewrite Hup.
Qed.

Lemma seeding_asked input w : asked (seeding input w).1 = asked w.
Proof.
  unfold Vector.seeding, bind, exists_, ret.
  destruct (seedData input) as [[]|]; [|done..].
  destruct (vector_exists (store w) namespace) as [[]|e]; [done| |done].
  apply seed_spec.
Qed.

(** X15: seeding never asks the model; without [seedData: true] it leaves the
    world as it is and does not consult the store; with it, a namespace
    that has data is left as it is and a failed [exists] rejects; for a
    namespace without data the sample products are upserted in their
    order, and the loop stops at the first upsert that rejects, with its
    error, leaving the later products unseeded. *)
Theorem seeding_is_guarded_and_ordered input w :
  asked (seeding input w).1 = asked w
  /\ match seedData input with
     | Some true =>
         match vector_exists (store w) namespace with
         | Fulfilled true => seeding input w = (w, Fulfilled ())
         | Rejected e => seeding input w = (w, Rejected e)
         | Fulfilled false =>
             match (seeding input w).2 with
             | Fulfilled _ =>
                 store (seeding input w).1 = upserted sampleProducts (store w)
             | Rejected e =>
                 exists done product rest,
                   sampleProducts = done ++ product :: rest
                   /\ store (seeding input w).1 = upserted (done ++ [product]) (store w)
                   /\ (vector_upsert (upserted done (store w)) namespace
                         (seed_params product)).2 = Rejected e
             end
         end
     | _ => seeding input w = (w, Fulfilled ())
     end.
Proof.
  unfold Vector.seeding, bind, exists_, ret.
  destruct (seedData input) as [[]|]; [|done..].
  destruct (vector_exists (store w) namespace) as [[]|e]; [done| |done].
  apply seed_spec.
Qed.

Lemma with_metadata_spec results :
  (length (with_metadata results) <= length results)%nat
  /\ Forall (fun mr => result_metadata mr.2 = Some mr.1 /\ mr.2 ∈ results)
       (with_metadata results)
  /\ (forall r m, r ∈ results -> result_metadata r = Some m ->
        (m, r) ∈ with_metadata results).
Proof.
  unfold with_metadata. split; [|split].
  - induction results as [|r results IH]; [done|]. simpl.
    destruct (result_metadata r); simpl.
    + apply le_n_S. exact IH.
    + apply Nat.le_trans with (length results); [exact IH|lia].
  - apply Forall_forall. intros [m r] Hin.
    apply list_elem_of_omap in Hin as (r' & Hr' & Hm).
    destruct (result_metadata r') as [m'|] eqn:Hmeta; [|done].
    simpl in Hm. injection Hm as -> ->. by split.
  - intros r m Hr Hm. apply list_elem_of_omap. exists r. by rewrite Hm.
Qed.

Lemma handler_without_results input w w1 :
  seeding input w = (w1, Fulfilled ()) ->
  vector_search (store w1) namespace
    {| query := input_query input; limit := SEARCH_LIMIT; similarity := SIMILARITY_THRESHOLD |}
    = Fulfilled [] ->
  handler input w
  = (w1, Fulfilled {| matches := []; recommendation := NO_MATCH;
                      recommendedSKU := EmptyString |}).
Proof.
  intros Hseed Hsearch. unfold Vector.handler, bind at 1. rewrite Hseed.
  unfold bind at 1, search. by rewrite Hsearch.
Qed.

Lemma handler_with_results input w w1 r results :
  seeding input w = (w1, Fulfilled ()) ->
  vector_search (store w1) namespace
    {| query := input_query input; limit := SEARCH_LIMIT; similarity := SIMILARITY_THRESHOLD |}
    = Fulfilled (r :: results) ->
  handler input w
  = ({| store := store w1;
        asked := asked w1 ++ [recommendation_prompt (input_query input)
                                (with_metadata (r :: results))] |},
     match structuredOutput SYSTEM (openai_model "gpt-5-mini")
             (recommendation_prompt (input_query input) (with_metadata (r :: results))) with
     | Fulfilled output =>
         match RecommendationSchema output with
         | Some rec =>
             Fulfilled {| matches := (fun mr => to_match mr.1 mr.2)
                                       <$> with_metadata (r :: results);
                          recommendation := summary rec;
                          recommendedSKU := recommended rec |}
         | None => Rejected noObjectGenerated
         end
     | Rejected e => Rejected e
     end).
Proof.
  intros Hseed Hsearch. unfold Vector.handler, bind at 1. rewrite Hseed.
  unfold bind at 1, search. rewrite Hsearch. cbv zeta.
  unfold bind, ask, ret, generateObject.
  destruct (structuredOutput _ _ _) as [output|e]; [|done].
  by destruct (RecommendationSchema output).
Qed.

Lemma handler_search_rejected input w w1 e :
  seeding input w = (w1, Fulfilled ()) ->
  vector_search (store w1) namespace
    {| query := input_query input; limit := SEARCH_LIMIT; similarity := SIMILARITY_THRESHOLD |}
    = Rejected e ->
  handler input w = (w1, Rejected e).
Proof.
  intros Hseed Hsearch. unfold Vector.handler, bind at 1. rewrite Hseed.
  unfold bind at 1, search. by rewrite Hsearch.
Qed.

Lemma handler_seeding_rejected input w w1 e :
  seeding input w = (w1, Rejected e) -> handler input w = (w1, Rejected e).
Proof. intros Hseed. unfold Vector.handler, bind at 1. by rewrite Hseed. Qed.

(** X16: after a seeding that did not reject, a search without results
    fulfils with no match and the fixed message; a search with results
    asks the model once, with the prompt built from the results that have
    metadata, rejects when the model call fails or its output is refused,
    and otherwise returns one match per result that has metadata, in
    order, with the summary and the SKU of the recommendation: a result
    without metadata is never a match. *)
Theorem handler_answers_from_the_results input w w1 results :
  seeding input w = (w1, Fulfilled ()) ->
  vector_search (store w1) namespace
    {| query := input_query input; limit := SEARCH_LIMIT; similarity := SIMILARITY_THRESHOLD |}
    = Fulfilled results ->
  match results with
  | [] =>
      handler input w
      = (w1, Fulfilled {| matches := []; recommendation := NO_MATCH;
                          recommendedSKU := EmptyString |})
  | _ =>
      let found := with_metadata results in
      let prompt := recommendation_prompt (input_query input) found in
      handler input w
      = ({| store := store w1; asked := asked w1 ++ [prompt] |},
         match structuredOutput SYSTEM (openai_model "gpt-5-mini") prompt with
         | Fulfilled output =>
             match RecommendationSchema output with
             | Some r =>
                 Fulfilled {| matches := (fun mr => to_match mr.1 mr.2) <$> found;
                              recommendation := summary r;
                              recommendedSKU := recommended r |}
             | None => Rejected noObjectGenerated
             end
         | Rejected e => Rejected e
         end)
      /\ (length found <= length results)%nat
      /\ Forall (fun mr => result_metadata mr.2 = Some mr.1 /\ mr.2 ∈ results) found
      /\ (forall r m, r ∈ results -> result_metadata r = Some m -> (m, r) ∈ found)
  end.
Proof.
  intros Hseed Hsearch. destruct results as [|r results].
  - by apply handler_without_results.
  - cbv zeta. split; [by apply handler_with_results|apply with_metadata_spec].
Qed.

(** X17: a rejection of the seeding or of the search is the rejection of the
    handler, with the same error; the model is asked only when the search
    has fulfilled with at least one result, and then exactly once; in every
    other case the prompts sent stay as they were. *)
Theorem handler_asks_only_with_results input w :
  match seeding input w with
  | (w1, Rejected e) => handler input w = (w1, Rejected e) /\ asked w1 = asked w
  | (w1, Fulfilled _) =>
      match vector_search (store w1) namespace
              {| query := input_query input; limit := SEARCH_LIMIT;
                 similarity := SIMILARITY_THRESHOLD |} with
      | Rejected e => handler input w = (w1, Rejected e) /\ asked w1 = asked w
      | Fulfilled [] =>
          handler input w
          = (w1, Fulfilled {| matches := []; recommendation := NO_MATCH;
                              recommendedSKU := EmptyString |})
          /\ asked w1 = asked w
      | Fulfilled (r :: results) =>
          store (handler input w).1 = store w1
          /\ asked (handler input w).1
             = asked w ++ [recommendation_prompt (input_query input)
                             (with_metadata (r :: results))]
      end
  end.
Proof.
  pose proof (seeding_asked input w) as Hasked.
  destruct (seeding input w) as [w1 [[]|e]] eqn:Hseed; simpl in Hasked.
  - destruct (vector_search (store w1) namespace
                {| query := input_query input; limit := SEARCH_LIMIT;
                   similarity := SIMILARITY_THRESHOLD |}) as [[|r results]|e] eqn:Hsearch.
    + by rewrite (handler_without_results input w w1 Hseed Hsearch).
    + rewrite (handler_with_results input w w1 r results Hseed Hsearch). simpl.
      by rewrite Hasked.
    + by rewrite (handler_search_rejected input w w1 e Hseed Hsearch).
  - by rewrite (handler_seeding_rejected input w w1 e Hseed).
Qed.
End VectorFacts.

(** * The further theorems at concrete runs *)

Lemma results_are_the_stories_witness :
  filter (named "story") (Route.written Samples.absent_winner)
  = Route.story_event <$> Route.results Samples.absent_winner.
Proof.
  assert (Hreach : Route.reachable Samples.openai_fails Samples.clock
            (Samples.judge_says (Samples.full_verdict "openai" ["anthropic"] 0.5))
            Samples.mismatch Samples.session MODELS Samples.absent_winner).
  { apply reachable_final. vm_compute. eauto. }
  exact (proj1 (results_are_the_stories _ _ _ _ _ _ Hreach)).
Defined.

Lemma judge_sees_the_survivors_witness :
  Route.judged Samples.absent_winner = [Route.results Samples.absent_winner].
Proof.
  assert (Hreach : Route.reachable Samples.openai_fails Samples.clock
            (Samples.judge_says (Samples.full_verdict "openai" ["anthropic"] 0.5))
            Samples.mismatch Samples.session MODELS Samples.absent_winner).
  { apply reachable_final. vm_compute. eauto. }
  destruct (judge_sees_the_survivors _ _ _ _ _ _ Hreach) as [_ Hjudged].
  apply Hjudged. discriminate.
Defined.

Lemma outcome_events_carry_the_result_witness :
  Route.provider_error_event {| config_provider := openai; config_model := "gpt-5-nano" |}
    "network error" ∈ Route.written Samples.absent_winner.
Proof.
  assert (Hreach : Route.reachable Samples.openai_fails Samples.clock
            (Samples.judge_says (Samples.full_verdict "openai" ["anthropic"] 0.5))
            Samples.mismatch Samples.session MODELS Samples.absent_winner).
  { apply reachable_final. vm_compute. eauto. }
  apply (outcome_events_carry_the_result _ _ _ _ _ _
           {| config_provider := openai; config_model := "gpt-5-nano" |} Hreach).
  - discriminate.
  - by left.
Defined.

Lemma agent_returns_in_config_order_witness :
  exists out,
    Agent.phase MoreSamples.agent_all_well = Agent.Settled (Fulfilled out)
    /\ provider <$> Agent.output_results out = [openai; anthropic]
    /\ Agent.id out = Samples.session.
Proof.
  destruct (agent_returns_in_config_order Samples.both_succeed Samples.clock
              (Samples.judge_says Samples.fair_verdict) Samples.mismatch Samples.session
              Samples.arena_input MoreSamples.agent_all_well) as (_ & Hout & _).
  - intros config Hin. apply elem_of_cons in Hin as [->|Hin];
      [|apply list_elem_of_singleton in Hin as ->]; eexists; reflexivity.
  - exists [settle 1%nat; settle 0%nat; resume; judge_settles]. reflexivity.
  - eexists. split; [reflexivity|]. split; [reflexivity|].
    eapply Hout. reflexivity.
Defined.

Lemma judge_prompt_shows_every_story_witness :
  contains (getJudgePrompt [MoreSamples.a_result] sci_fi "A robot discovers it can dream")
    (story_block MoreSamples.a_result).
Proof.
  apply (judge_prompt_shows_every_story [MoreSamples.a_result] sci_fi
           "A robot discovers it can dream" MoreSamples.a_result).
  by left.
Defined.

Lemma judge_prompt_is_blind_witness :
  getJudgePrompt [MoreSamples.a_result] sci_fi "A robot discovers it can dream"
  = getJudgePrompt [MoreSamples.a_result_retimed] sci_fi "A robot discovers it can dream".
Proof. apply judge_prompt_is_blind; reflexivity. Defined.

Lemma judgment_needs_its_keys_witness :
  exists fields w, Samples.fair_verdict = JObj fields
                   /\ get "winner" fields = Some (JStr w).
Proof.
  destruct (JudgmentSchema Samples.fair_verdict) as [jd|] eqn:Hschema;
    [|vm_compute in Hschema; discriminate].
  destruct (judgment_needs_its_keys _ _ Hschema) as (fields & Heq & (w & Hw) & _).
  exists fields, w. split; [exact Heq|exact Hw].
Defined.

Lemma client_follows_a_clean_run_witness :
  exists c,
    Client.watch (Route.written MoreSamples.halfway) = Some c
    /\ Client.status (Client.state c) = Client.generating
    /\ Client.stories (Client.state c)
       = Client.story_entry <$> Route.results MoreSamples.halfway.
Proof.
  assert (Hreach : Route.reachable Samples.both_succeed Samples.clock
            (Samples.judge_says Samples.fair_verdict) Samples.mismatch Samples.session MODELS
            MoreSamples.halfway).
  { apply reachable_final. vm_compute. eauto. }
  destruct (client_follows_a_clean_run _ _ _ _ _ _ Hreach)
    as (c & Hwatch & _ & Hstatus & _ & Hstories & _).
  - vm_compute. repeat constructor; discriminate.
  - discriminate.
  - exists c. split; [exact Hwatch|]. split; [exact Hstatus|exact Hstories].
Defined.


Lemma client_drops_the_run_on_a_provider_error_witness :
  exists c,
    Client.watch (Route.written Samples.absent_winner) = Some c
    /\ Client.globalError (Client.state c) = Some (JStr "Connection lost")
    /\ Client.judgment (Client.state c) = Client.null.
Proof.
  assert (Hreach : Route.reachable Samples.openai_fails Samples.clock
            (Samples.judge_says (Samples.full_verdict "openai" ["anthropic"] 0.5))
            Samples.mismatch Samples.session MODELS Samples.absent_winner).
  { apply reachable_final. vm_compute. eauto. }
  destruct (client_drops_the_run_on_a_provider_error _ _ _ _ _ _ Hreach)
    as (c & config & e & Hwatch & _ & _ & _ & _ & Hglobal & Hjudgment & _).
  - vm_compute. apply Exists_cons_tl, Exists_cons_hd. split; reflexivity.
  - exists c. split; [exact Hwatch|]. split; [exact Hglobal|exact Hjudgment].
Defined.

Lemma judge_step_waits_for_generate_step_witness :
  Client.getStepStatus Client.judging 1 "generate" = Client.step_complete.
Proof.
  apply (proj1 (judge_step_waits_for_generate_step Client.judging 1 "judge")).
  discriminate.
Defined.

Lemma connection_failures_witness :
  Client.globalError (Client.state (Client.connection_lost false Client.startArena))
  = Some (JStr "Connection lost").
Proof.
  destruct (connection_failures Client.startArena false []) as (_ & _ & Hlost & _).
  destruct Hlost as (_ & Hglobal & _); [discriminate..|exact Hglobal].
Defined.

Lemma handler_answers_from_the_results_witness :
  (Vector.matches <$> fulfilled_value
     (Vector.Sample.run {| Vector.input_query := "chair"; Vector.seedData := Some true |}
        Vector.Sample.empty_world).2)
  = Some [Vector.to_match Vector.Sample.chair
            {| Vector.result_metadata := Some Vector.Sample.chair;
               Vector.result_similarity := 0.8 |}].
Proof.
  destruct (handler_answers_from_the_results (list Vector.UpsertParams)
              Vector.Sample.has_data Vector.Sample.put Vector.Sample.find
              Vector.Sample.products Vector.Sample.advisor Samples.mismatch
              Vector.Sample.show
              {| Vector.input_query := "chair"; Vector.seedData := Some true |}
              Vector.Sample.empty_world
              {| Vector.store := Vector.seed_params <$> Vector.Sample.products;
                 Vector.asked := [] |}
              Vector.Sample.hits) as [Hrun _].
  - reflexivity.
  - reflexivity.
  - unfold Vector.Sample.run. rewrite Hrun. reflexivity.
Defined.
